(** * Snakey: a shallow embedding of [main.py] and its properties

    The game core of [main.py] (classes [Direction], [Point], [Snake],
    [Apple] and [Game]) is embedded as Rocq functions over an explicit
    world: the [Game] object, the state of the random generator read by
    [randint], and the sequence of writes to the terminal.  Python
    integers are [Z], the [float] field [speed] is a binary64 primitive
    float, lists are [list], and a raised [IndexError]/[KeyError] is a
    [Raise] result.

    The record [Game] carries no canvas: [Game.render], the only method
    that reads or writes it, takes the canvas beside the game.  The
    loop of the script is run on its inputs, the clock readings and the
    results of [get_key]; [get_key] itself and the terminal set-up are
    left out. *)

From Stdlib Require Import ZArith List Bool String Ascii Lia PrimFloat
  DecimalString.
Import ListNotations.
Open Scope Z_scope.

(* Decimal float literals denote the nearest binary64 value, as in Python:
   0.05 is 0x1.999999999999ap-5 and 0.9 is 0x1.ccccccccccccdp-1. *)
#[local] Set Warnings "-inexact-float".

(** ** Data model *)

(** [class Direction(Enum)]: four members, all truthy. *)
Inductive Direction : Set := UP | DOWN | LEFT | RIGHT.

Definition Direction_eqb (a b : Direction) : bool :=
  match a, b with
  | UP, UP | DOWN, DOWN | LEFT, LEFT | RIGHT, RIGHT => true
  | _, _ => false
  end.

(** [@dataclass class Point]: two integers, equality by coordinates. *)
Record Point : Set := mkPoint { x : Z; y : Z }.

(** [Point.__add__] *)
Definition Point_add (a b : Point) : Point :=
  mkPoint (x a + x b) (y a + y b).

(** The [__eq__] generated by [@dataclass]. *)
Definition Point_eqb (a b : Point) : bool :=
  (x a =? x b) && (y a =? y b).

(** [class Snake]: index 0 of [body] is the tail, the last index the head. *)
Record Snake : Set := mkSnake { body : list Point; direction : Direction }.

(** [Snake.DIRECTION_VECTORS] *)
Definition DIRECTION_VECTORS (d : Direction) : Point :=
  match d with
  | UP => mkPoint (-1) 0
  | DOWN => mkPoint 1 0
  | LEFT => mkPoint 0 (-1)
  | RIGHT => mkPoint 0 1
  end.

(** [class Apple] *)
Record Apple : Set := mkApple { position : Point }.

(** [class Game], without its [canvas]. *)
Record Game : Set := mkGame {
  height : Z;
  width : Z;
  speed : float;
  score : Z;
  game_over : bool;
  snake : Snake;
  apple : Apple
}.

(** The generator behind [random.randint]: a tape of raw draws and the
    index of the next one. *)
Record Rng : Type := mkRng { tape : nat -> Z; cursor : nat }.

(** What [print] sends to the terminal: a cursor-position escape
    [ESC[row;colH] or a piece of text. *)
Inductive Glyph : Set :=
| Blank                      (* " " *)
| BodyGlyph                  (* GREEN 0 RESET *)
| HeadGlyph                  (* GREEN X RESET *)
| AppleGlyph                 (* RED * RESET *)
| ScoreText (n : Z).         (* "Score: n" *)

Inductive TermEvent : Set :=
| CursorTo (row col : Z)
| Put (g : Glyph).

Record World : Type := mkWorld {
  game : Game;
  random : Rng;
  terminal : list TermEvent
}.

(** ** Exceptions and the state monad of a method call *)

Inductive PyExn : Set := IndexError | KeyError.

Inductive Result (A : Type) : Type :=
| Ok (a : A) (w : World)
| Raise (e : PyExn) (w : World).
Arguments Ok {A} a w.
Arguments Raise {A} e w.

Definition M (A : Type) : Type := World -> Result A.

Definition ret {A} (a : A) : M A := fun w => Ok a w.

Definition bind {A B} (m : M A) (k : A -> M B) : M B :=
  fun w => match m w with
           | Ok a w' => k a w'
           | Raise e w' => Raise e w'
           end.

Definition raise {A} (e : PyExn) : M A := fun w => Raise e w.

Declare Scope py_scope.
Delimit Scope py_scope with py.
Notation "v <- m ;; k" := (bind m (fun v => k))
  (at level 61, m at next level, right associativity) : py_scope.
Notation "m ;; k" := (bind m (fun _ => k))
  (at level 61, right associativity) : py_scope.
Open Scope py_scope.

Definition self : M Game := fun w => Ok (game w) w.

Definition update (f : Game -> Game) : M unit :=
  fun w => Ok tt (mkWorld (f (game w)) (random w) (terminal w)).

Definition print (e : TermEvent) : M unit :=
  fun w => Ok tt (mkWorld (game w) (random w) (terminal w ++ [e])).

Fixpoint for_each {A} (l : list A) (f : A -> M unit) : M unit :=
  match l with
  | [] => ret tt
  | a :: l' => f a ;; for_each l' f
  end.

(** Field assignments. *)
Definition set_game_over (b : bool) (g : Game) : Game :=
  mkGame (height g) (width g) (speed g) (score g) b (snake g) (apple g).

Definition set_speed (s : float) (g : Game) : Game :=
  mkGame (height g) (width g) s (score g) (game_over g) (snake g) (apple g).

Definition set_score (n : Z) (g : Game) : Game :=
  mkGame (height g) (width g) (speed g) n (game_over g) (snake g) (apple g).

Definition set_body (b : list Point) (g : Game) : Game :=
  mkGame (height g) (width g) (speed g) (score g) (game_over g)
         (mkSnake b (direction (snake g))) (apple g).

Definition set_direction (d : Direction) (g : Game) : Game :=
  mkGame (height g) (width g) (speed g) (score g) (game_over g)
         (mkSnake (body (snake g)) d) (apple g).

Definition set_apple_position (p : Point) (g : Game) : Game :=
  mkGame (height g) (width g) (speed g) (score g) (game_over g)
         (snake g) (mkApple p).

(** ** Library functions *)

(** [random.randint(a, b)]: an integer of [a..b], read off the next raw
    draw of the generator. *)
Definition randint_of (a b raw : Z) : Z := a + raw mod (b - a + 1).

Definition randint (a b : Z) : M Z :=
  fun w =>
    let r := random w in
    Ok (randint_of a b (tape r (cursor r)))
       (mkWorld (game w) (mkRng (tape r) (S (cursor r))) (terminal w)).

(** The builtin [max(a, b)] on floats: [b] only when it is greater. *)
Definition py_max (a b : float) : float :=
  if PrimFloat.ltb a b then b else a.

(** [str.lower] on a string of 8-bit code points. *)
Definition lower_ascii (c : ascii) : ascii :=
  let n := nat_of_ascii c in
  if ((65 <=? n) && (n <=? 90))%nat then ascii_of_nat (n + 32)
  else if ((192 <=? n) && (n <=? 222) && negb (n =? 215))%nat
       then ascii_of_nat (n + 32)
  else c.

Fixpoint lower (s : string) : string :=
  match s with
  | EmptyString => EmptyString
  | String c s' => String (lower_ascii c) (lower s')
  end.

(** ** class Snake *)

(** [Snake.head]: [self.body[-1]] *)
Definition head : M Point :=
  g <- self ;;
  match rev (body (snake g)) with
  | p :: _ => ret p
  | [] => raise IndexError
  end.

(** [Snake.tail]: [self.body[0]] *)
Definition tail : M Point :=
  g <- self ;;
  match body (snake g) with
  | p :: _ => ret p
  | [] => raise IndexError
  end.

(** [self.snake.body.pop(0)] *)
Definition body_pop0 : M Point :=
  g <- self ;;
  match body (snake g) with
  | p :: rest => update (set_body rest) ;; ret p
  | [] => raise IndexError
  end.

(** ** class Game *)

(** [Game.CONTROLS] *)
Definition CONTROLS : list (string * Direction) :=
  [("w", UP); ("s", DOWN); ("a", LEFT); ("d", RIGHT)]%string.

Fixpoint dict_get {V} (d : list (string * V)) (k : string) : option V :=
  match d with
  | [] => None
  | (k', v) :: d' => if String.eqb k k' then Some v else dict_get d' k
  end.

(** [Game.__init__(self, w, h)] *)
Definition Game_init (w h : Z) : Game :=
  mkGame h w 0.5%float 0 false
         (mkSnake (map (fun '(px, py) => mkPoint px py)
                       [(1, 3); (2, 3); (3, 3); (4, 3)]) DOWN)
         (mkApple (mkPoint 20 20)).

(** [Game.update_score] *)
Definition update_score : M unit :=
  g <- self ;;
  print (CursorTo 1 4) ;; print (Put (ScoreText (score g))).

(** [Game.spawn_apple] *)
Definition spawn_apple : M unit :=
  ax <- randint 1 40 ;;
  ay <- randint 1 40 ;;
  update (set_apple_position (mkPoint ax ay)) ;;
  print (CursorTo (ax + 1) (ay + 1)) ;;
  print (Put AppleGlyph).

(** The three tests of [Game.validate_direction]. *)
Definition hits_wall (g : Game) (new_head : Point) : bool :=
  (x new_head <=? 0) || (x new_head >=? height g - 1)
  || (y new_head <=? 0) || (y new_head >=? width g - 1).

Definition hits_body (g : Game) (new_head : Point) : bool :=
  existsb (fun b => (x b =? x new_head) && (y b =? y new_head))
          (removelast (body (snake g))).

Definition on_apple (g : Game) (new_head : Point) : bool :=
  Point_eqb new_head (position (apple g)).

(** [Game.validate_direction] *)
Definition validate_direction (new_head : Point) : M unit :=
  g <- self ;;
  if hits_wall g new_head then update (set_game_over true)
  else
    g <- self ;;
    if hits_body g new_head then update (set_game_over true)
    else
      g <- self ;;
      if on_apple g new_head then
        spawn_apple ;;
        t <- tail ;;
        g <- self ;;
        update (set_body (mkPoint (x t + 1) (y t + 1) :: body (snake g))) ;;
        g <- self ;;
        update (set_speed (py_max 0.05
                                  (speed g * 0.9)%float)) ;;
        g <- self ;;
        update (set_score (score g + 1)) ;;
        update_score
      else ret tt.

(** [Game.move] *)
Definition move (new_direction : option Direction) : M unit :=
  g <- self ;;
  let new_direction :=
    match new_direction with
    | Some d => d
    | None => direction (snake g)
    end in
  h <- head ;;
  let new_head := Point_add h (DIRECTION_VECTORS new_direction) in
  validate_direction new_head ;;
  g <- self ;;
  update (set_body (body (snake g) ++ [new_head])) ;;
  t <- tail ;;
  print (CursorTo (x t + 1) (y t + 1)) ;;
  print (Put Blank) ;;
  body_pop0 ;;
  update (set_direction new_direction) ;;
  g <- self ;;
  for_each (removelast (body (snake g)))
           (fun i => print (CursorTo (x i + 1) (y i + 1)) ;;
                     print (Put BodyGlyph)) ;;
  print (CursorTo (x new_head + 1) (y new_head + 1)) ;;
  print (Put HeadGlyph).

(** The [opposite_directions] table of [Game.get_movement]. *)
Definition opposite_directions (d : Direction) : Direction :=
  match d with
  | UP => DOWN
  | DOWN => UP
  | LEFT => RIGHT
  | RIGHT => LEFT
  end.

(** [Game.get_movement] *)
Definition get_movement (key : string) : M unit :=
  g <- self ;;
  if negb (existsb (String.eqb (lower key)) ["w"; "a"; "s"; "d"]%string)
  then ret tt
  else
    match dict_get CONTROLS (lower key) with
    | None => raise KeyError
    | Some new_direction =>
        if Direction_eqb new_direction
                         (opposite_directions (direction (snake g)))
        then ret tt
        else if Direction_eqb new_direction (direction (snake g))
        then ret tt
        else move (Some new_direction)
    end.

(** ** Notions the properties are stated with *)

(** The last element of a body, the head of a non-empty one. *)
Definition last_point (l : list Point) : Point := last l (mkPoint 0 0).

(** The body of [move]'s repaint loop, as the events it prints. *)
Definition repaint (l : list Point) : list TermEvent :=
  flat_map (fun i => [CursorTo (x i + 1) (y i + 1); Put BodyGlyph]) l.

(** The world after the apple branch of [validate_direction], for a
    body whose first element is [t]. *)
Definition grown (t : Point) (w : World) : World :=
  let g := game w in
  let r := random w in
  let ax := randint_of 1 40 (tape r (cursor r)) in
  let ay := randint_of 1 40 (tape r (S (cursor r))) in
  mkWorld
    (mkGame (height g) (width g)
            (py_max 0.05 (speed g * 0.9)%float)
            (score g + 1) (game_over g)
            (mkSnake (mkPoint (x t + 1) (y t + 1) :: body (snake g))
                     (direction (snake g)))
            (mkApple (mkPoint ax ay)))
    (mkRng (tape r) (S (S (cursor r))))
    (terminal w ++ [CursorTo (ax + 1) (ay + 1); Put AppleGlyph;
                    CursorTo 1 4; Put (ScoreText (score g + 1))]).

(** The world after a collision branch of [validate_direction]. *)
Definition crashed (w : World) : World :=
  mkWorld (set_game_over true (game w)) (random w) (terminal w).

(** The direction and the cell [move] computes before it validates. *)
Definition heading (new_direction : option Direction) (w : World) : Direction :=
  match new_direction with
  | Some d => d
  | None => direction (snake (game w))
  end.

Definition next_head (new_direction : option Direction) (w : World) : Point :=
  Point_add (last_point (body (snake (game w))))
            (DIRECTION_VECTORS (heading new_direction w)).

(** The world after the second half of [move] (append, erase the tail,
    pop, turn, repaint), entered from the world [w1] that
    [validate_direction] left. *)
Definition slid (nd : Direction) (nh : Point) (w1 : World) : World :=
  let g := game w1 in
  let appended := body (snake g) ++ [nh] in
  let t := hd nh appended in
  let b := List.tl appended in
  mkWorld
    (mkGame (height g) (width g) (speed g) (score g) (game_over g)
            (mkSnake b nd) (apple g))
    (random w1)
    (((terminal w1 ++ [CursorTo (x t + 1) (y t + 1); Put Blank])
        ++ repaint (removelast b))
       ++ [CursorTo (x nh + 1) (y nh + 1); Put HeadGlyph]).

(** The world a call ends in, returned or raised. *)
Definition world_of {A} (r : Result A) : World :=
  match r with
  | Ok _ w => w
  | Raise _ w => w
  end.

(** The world at the start of a game on a [w] by [h] terminal, with a
    generator that draws [tp] and nothing printed yet. *)
Definition fresh (w h : Z) (tp : nat -> Z) : World :=
  mkWorld (Game_init w h) (mkRng tp 0) [].

(** The world two steps into a 44 by 44 game: the player pressed [a],
    then one timed move went left again; the head is at [(4,1)]. *)
Definition at_left_wall : World :=
  world_of (move None
    (world_of (get_movement "a" (fresh 44 44 (fun _ => 7))))).

(** One period of raw draws for a range of forty values. *)
Definition residues : list Z := map Z.of_nat (seq 0 40).

(** A generator whose next two raw draws are [r1] and [r2]. *)
Definition drawing (r1 r2 : Z) : Rng :=
  mkRng (fun n => match n with O => r1 | _ => r2 end) 0.

(** The apple positions [spawn_apple] reaches from game [g], one for each
    pair of residues the two draws can have. *)
Definition spawn_outcomes (g : Game) : list Point :=
  map (fun '(r1, r2) =>
         position (apple (game (world_of
           (spawn_apple (mkWorld g (drawing r1 r2) []))))))
      (list_prod residues residues).

(** The cells of the square [1..40] by [1..40]. *)
Definition square : list Point :=
  map (fun '(i, j) => mkPoint i j)
      (list_prod (map Z.of_nat (seq 1 40)) (map Z.of_nat (seq 1 40))).

(** The methods a game is driven by, and a call of one. *)
Inductive Op : Set :=
| CallMove (new_direction : option Direction)
| CallGetMovement (key : string)
| CallValidateDirection (new_head : Point)
| CallSpawnApple
| CallUpdateScore.

Definition call (op : Op) : M unit :=
  match op with
  | CallMove d => move d
  | CallGetMovement key => get_movement key
  | CallValidateDirection p => validate_direction p
  | CallSpawnApple => spawn_apple
  | CallUpdateScore => update_score
  end.

(** The worlds a game passes through: a fresh [Game(w, h)], then any
    calls that return. *)
Inductive reachable : World -> Prop :=
| reach_init (w h : Z) (r : Rng) (out : list TermEvent) :
    reachable (mkWorld (Game_init w h) r out)
| reach_call (op : Op) (w w' : World) :
    reachable w -> call op w = Ok tt w' -> reachable w'.

(** The apple branch of [validate_direction] is taken. *)
Definition eats (g : Game) (p : Point) : bool :=
  negb (hits_wall g p) && negb (hits_body g p) && on_apple g p.

(** The call reaches the apple branch. *)
Definition consumes (op : Op) (w : World) : bool :=
  match op with
  | CallMove d => eats (game w) (next_head d w)
  | CallValidateDirection p => eats (game w) p
  | CallGetMovement key =>
      match dict_get CONTROLS (lower key) with
      | Some d =>
          negb (Direction_eqb d (opposite_directions (direction (snake (game w)))))
          && negb (Direction_eqb d (direction (snake (game w))))
          && eats (game w) (next_head (Some d) w)
      | None => false
      end
  | CallSpawnApple | CallUpdateScore => false
  end.

(** The speed after one more apple. *)
Definition next_speed (s : float) : float :=
  py_max 0.05 (s * 0.9)%float.

(** The speed after [n] apples. *)
Definition level (n : nat) : float := Nat.iter n next_speed 0.5%float.

(** ** Closed forms of the calls *)

(** The world [validate_direction] leaves on a non-empty body. *)
Definition validated (p : Point) (w : World) : World :=
  match body (snake (game w)) with
  | [] => w
  | t :: _ =>
      if hits_wall (game w) p then crashed w
      else if hits_body (game w) p then crashed w
      else if on_apple (game w) p then grown t w
      else w
  end.

(** The world [spawn_apple] leaves. *)
Definition spawned (w : World) : World :=
  let r := random w in
  let ax := randint_of 1 40 (tape r (cursor r)) in
  let ay := randint_of 1 40 (tape r (S (cursor r))) in
  mkWorld (set_apple_position (mkPoint ax ay) (game w))
          (mkRng (tape r) (S (S (cursor r))))
          (terminal w ++ [CursorTo (ax + 1) (ay + 1); Put AppleGlyph]).

(** The world [move] leaves on a non-empty body. *)
Definition moved (d : option Direction) (w : World) : World :=
  slid (heading d w) (next_head d w) (validated (next_head d w) w).

(** The world a call leaves on a non-empty body. *)
Definition after (op : Op) (w : World) : World :=
  match op with
  | CallMove d => moved d w
  | CallGetMovement key =>
      match dict_get CONTROLS (lower key) with
      | None => w
      | Some d =>
          if Direction_eqb d (opposite_directions (direction (snake (game w))))
          then w
          else if Direction_eqb d (direction (snake (game w))) then w
          else moved (Some d) w
      end
  | CallValidateDirection p => validated p w
  | CallSpawnApple => spawned w
  | CallUpdateScore =>
      mkWorld (game w) (random w)
              (terminal w ++ [CursorTo 1 4; Put (ScoreText (score (game w)))])
  end.

(** The calls the driver loop makes. *)
Definition is_play (op : Op) : bool :=
  match op with
  | CallMove _ | CallGetMovement _ => true
  | _ => false
  end.

(** The worlds of a game that is only played: a fresh [Game(w, h)], then
    calls of [move] and [get_movement]. *)
Inductive played : World -> Prop :=
| played_init (w h : Z) (r : Rng) (out : list TermEvent) :
    played (mkWorld (Game_init w h) r out)
| played_call (op : Op) (w w' : World) :
    played w -> is_play op = true -> call op w = Ok tt w' -> played w'.

(** [b] is one unit step from [a]. *)
Definition adjacent (a b : Point) : Prop :=
  exists d, b = Point_add a (DIRECTION_VECTORS d).

(** Each point of the list is one unit step from the one before it. *)
Fixpoint contiguous (l : list Point) : Prop :=
  match l with
  | a :: (b :: _) as rest => adjacent a b /\ contiguous rest
  | _ => True
  end.

(** ** The canvas and [Game.render] *)

(** [GREEN], [RED] and [RESET]: ANSI colour escapes.  Strings are byte
    strings; a box-drawing character is its UTF-8 encoding. *)
Definition ESC : string := String (ascii_of_nat 27) EmptyString.
Definition RED : string := ESC ++ "[31m".
Definition GREEN : string := ESC ++ "[32m".
Definition RESET : string := ESC ++ "[0m".

(** The [canvas] attribute: rows of cells, each cell a string. *)
Definition Canvas : Set := list (list string).

(** The canvas [Game.__init__(w, h)] builds: [h] rows of [w] blanks. *)
Definition Game_canvas (w h : Z) : Canvas :=
  repeat (repeat " "%string (Z.to_nat w)) (Z.to_nat h).

(** [range(n)] *)
Definition range (n : Z) : list Z := map Z.of_nat (seq 0 (Z.to_nat n)).

(** The position a list index denotes: [0 .. len-1] as they are,
    [-len .. -1] counted from the end, [IndexError] ([None]) otherwise. *)
Definition py_index (len : nat) (i : Z) : option nat :=
  if (0 <=? i) && (i <? Z.of_nat len) then Some (Z.to_nat i)
  else if (i <? 0) && (- Z.of_nat len <=? i)
       then Some (Z.to_nat (Z.of_nat len + i))
  else None.

(** [l[i]] *)
Definition getitem {A} (l : list A) (i : Z) : option A :=
  match py_index (List.length l) i with
  | Some n => nth_error l n
  | None => None
  end.

Fixpoint set_nth {A} (n : nat) (v : A) (l : list A) : list A :=
  match l, n with
  | [], _ => []
  | _ :: l', O => v :: l'
  | a :: l', S n' => a :: set_nth n' v l'
  end.

(** [l[i] = v] *)
Definition setitem {A} (l : list A) (i : Z) (v : A) : option (list A) :=
  match py_index (List.length l) i with
  | Some n => Some (set_nth n v l)
  | None => None
  end.

(** Sequencing of steps that may raise [IndexError]. *)
Definition and_then {A B} (o : option A) (k : A -> option B) : option B :=
  match o with
  | Some a => k a
  | None => None
  end.

Notation "v <-? m ;; k" := (and_then m (fun v => k))
  (at level 61, m at next level, right associativity) : py_scope.

Fixpoint for_each_cell {A S} (l : list A) (f : A -> S -> option S) (s : S)
  : option S :=
  match l with
  | [] => Some s
  | a :: l' => s' <-? f a s ;; for_each_cell l' f s'
  end.

(** [self.canvas[row][col] = v] *)
Definition canvas_set (cv : Canvas) (row col : Z) (v : string)
  : option Canvas :=
  r <-? getitem cv row ;;
  r' <-? setitem r col v ;;
  setitem cv row r'.

(** [self.canvas[row][col]] *)
Definition cell (cv : Canvas) (row col : Z) : option string :=
  r <-? getitem cv row ;; getitem r col.

(** [str(n)] for an integer. *)
Definition str (n : Z) : string := NilZero.string_of_int (Z.to_int n).

(** [enumerate] of the characters of a string. *)
Definition enumerate (s : string) : list (Z * ascii) :=
  combine (map Z.of_nat (seq 0 (String.length s))) (list_ascii_of_string s).

(** The body of the two nested loops of [render], for one cell. *)
Definition paint_cell (g : Game) (row col : Z) (cv : Canvas) : option Canvas :=
  cv <-? (if (row =? 0) || (row =? height g - 1)
          then canvas_set cv row col "─"
          else if (col =? 0) || (col =? width g - 1)
          then canvas_set cv row col "│"
          else Some cv) ;;
  if existsb (Point_eqb (mkPoint row col)) (body (snake g))
  then canvas_set cv row col (GREEN ++ "0" ++ RESET)
  else Some cv.

(** [Game.render], on the game and its canvas: the canvas afterwards and
    the rows printed, or [None] when it raised [IndexError]. *)
Definition render (g : Game) (cv : Canvas) : option (Canvas * list string) :=
  match rev (body (snake g)) with
  | [] => None
  | snake_head :: _ =>
      let apple := position (apple g) in
      cv <-? for_each_cell (range (height g))
               (fun row => for_each_cell (range (width g))
                             (fun col => paint_cell g row col)) cv ;;
      cv <-? canvas_set cv 0 0 "╭" ;;
      cv <-? canvas_set cv 0 (width g - 1) "╮" ;;
      cv <-? canvas_set cv (height g - 1) 0 "╰" ;;
      cv <-? canvas_set cv (height g - 1) (width g - 1) "╯" ;;
      cv <-? canvas_set cv (x snake_head) (y snake_head)
                        (GREEN ++ "X" ++ RESET) ;;
      cv <-? canvas_set cv (x apple) (y apple) (RED ++ "*" ++ RESET) ;;
      let score_text := ("Score: " ++ str (score g))%string in
      cv <-? for_each_cell (enumerate score_text)
               (fun '(i, char) cv =>
                  canvas_set cv 0 (i + 3) (String char EmptyString)) cv ;;
      Some (cv, map (String.concat "") cv)
  end.

(** A canvas of [h] rows of [w] cells. *)
Definition shaped (h w : Z) (cv : Canvas) : Prop :=
  Z.of_nat (List.length cv) = h /\
  Forall (fun r => Z.of_nat (List.length r) = w) cv.

(** [cv'] is [cv] with every cell [(r, c)] of the grid repainted by
    [f r c]. *)
Definition paints (h w : Z) (cv cv' : Canvas)
           (f : Z -> Z -> string -> string) : Prop :=
  shaped h w cv' /\
  forall r c, 0 <= r < h -> 0 <= c < w ->
              cell cv' r c = option_map (f r c) (cell cv r c).

(** One assignment to a cell, as a repainting. *)
Definition put (row col : Z) (v : string) : Z -> Z -> string -> string :=
  fun r c old => if (r =? row) && (c =? col) then v else old.

(** What the two nested loops of [render] leave in cell [(r, c)]. *)
Definition base (g : Game) (r c : Z) (old : string) : string :=
  if existsb (Point_eqb (mkPoint r c)) (body (snake g))
  then (GREEN ++ "0" ++ RESET)%string
  else if (r =? 0) || (r =? height g - 1) then "─"%string
  else if (c =? 0) || (c =? width g - 1) then "│"%string
  else old.

(** The text [render] writes over the top border. *)
Definition score_text (g : Game) : string :=
  ("Score: " ++ str (score g))%string.

(** What [render] leaves in cell [(r, c)] that held [old]: the score
    text, else the apple, else the head, else a corner, else the body,
    else the border, else what was there. *)
Definition shown (g : Game) (r c : Z) (old : string) : string :=
  let hd := last_point (body (snake g)) in
  let ap := position (apple g) in
  if (r =? 0) && (3 <=? c) && (c <? 3 + Z.of_nat (String.length (score_text g)))
  then match String.get (Z.to_nat (c - 3)) (score_text g) with
       | Some ch => String ch EmptyString
       | None => old
       end
  else if (r =? x ap) && (c =? y ap) then (RED ++ "*" ++ RESET)%string
  else if (r =? x hd) && (c =? y hd) then (GREEN ++ "X" ++ RESET)%string
  else if (r =? height g - 1) && (c =? width g - 1) then "╯"%string
  else if (r =? height g - 1) && (c =? 0) then "╰"%string
  else if (r =? 0) && (c =? width g - 1) then "╮"%string
  else if (r =? 0) && (c =? 0) then "╭"%string
  else base g r c old.

(** An index the list accepts. *)
Definition valid_index (len i : Z) : Prop := - len <= i < len.

(** [enumerate] from a starting index. *)
Definition enumerate_from (k : nat) (s : string) : list (Z * ascii) :=
  combine (map Z.of_nat (seq k (String.length s))) (list_ascii_of_string s).

(** What the loop over the score text leaves in cell [(r, c)]. *)
Fixpoint text_layer (l : list (Z * ascii)) (r c : Z) (old : string) : string :=
  match l with
  | [] => old
  | (i, ch) :: l' =>
      text_layer l' r c (put 0 (i + 3) (String ch EmptyString) r c old)
  end.

(** ** The driver loop *)

(** [key in d] for a dict. *)
Definition dict_has {V} (d : list (string * V)) (k : string) : bool :=
  match dict_get d k with
  | Some _ => true
  | None => false
  end.

(** What one turn of the loop reads from outside: the clock at the
    test, the clock after a timed move, and the result of [get_key()]. *)
Record Tick : Set := mkTick {
  tick_now : float;
  tick_later : float;
  tick_key : option string
}.

(** How the loop was left: by [break] on [q], by the [while] test on
    [game_over], or not yet, with the inputs used up. *)
Inductive Exit : Set :=
| ByQuit
| ByGameOver
| Pending (last_update : float).

(** The [while not game.game_over] loop of the script, run on the
    inputs of its first turns. *)
Fixpoint main_loop (ticks : list Tick) (last_update : float) : M Exit :=
  g <- self ;;
  if game_over g then ret ByGameOver
  else
    match ticks with
    | [] => ret (Pending last_update)
    | t :: rest =>
        last_update <-
          (if PrimFloat.leb (speed g) (tick_now t - last_update)%float
           then move None ;; ret (tick_later t)
           else ret last_update) ;;
        match tick_key t with
        | Some key =>
            if negb (String.eqb key "") && String.eqb key "q"
            then ret ByQuit
            else if dict_has CONTROLS key
            then get_movement key ;; main_loop rest last_update
            else main_loop rest last_update
        | None => main_loop rest last_update
        end
    end.

(** The script on a terminal of [columns] by [lines]: the first frame,
    then the loop; [None] when the frame raised [IndexError].  The
    cursor escapes and the closing message it prints are left out. *)
Definition main (columns lines : Z) (r : Rng) (start : float)
           (ticks : list Tick) : option (Result Exit) :=
  _ <-? render (Game_init columns lines) (Game_canvas columns lines) ;;
  Some (main_loop ticks start (mkWorld (Game_init columns lines) r [])).

(** A turn in which nothing is to be done: the interval since
    [last_update] is not over, and the key, if any, is neither [q] nor a
    key of [CONTROLS] as it stands (an upper-case letter is none). *)
Definition idle (speed_now last_update : float) (t : Tick) : Prop :=
  PrimFloat.leb speed_now (tick_now t - last_update)%float = false /\
  match tick_key t with
  | None => True
  | Some key => key <> "q"%string /\ dict_get CONTROLS key = None
  end.

(** ** Equations of the operations *)

Ltac run := unfold bind, self, update, print, ret, raise; cbn.

Lemma rev_nonempty (A : Type) (l : list A) (d : A) :
  l <> [] -> exists r, rev l = last l d :: r.
Proof.
  intros Hne. destruct (exists_last Hne) as [l' [a ->]].
  rewrite rev_app_distr, last_last. cbn. eauto.
Qed.

Lemma head_ok (w : World) :
  body (snake (game w)) <> [] ->
  head w = Ok (last_point (body (snake (game w)))) w.
Proof.
  intros Hne. unfold head. run.
  destruct (rev_nonempty _ _ (mkPoint 0 0) Hne) as [r ->]. reflexivity.
Qed.

Lemma head_empty (w : World) :
  body (snake (game w)) = [] -> head w = Raise IndexError w.
Proof. intros He. unfold head. run. rewrite He. reflexivity. Qed.

Lemma for_each_repaint (l : list Point) (w : World) :
  for_each l (fun i => print (CursorTo (x i + 1) (y i + 1)) ;;
                       print (Put BodyGlyph)) w
  = Ok tt (mkWorld (game w) (random w) (terminal w ++ repaint l)).
Proof.
  revert w. induction l as [|p l IH]; intros w; cbn.
  - unfold ret. rewrite app_nil_r. destruct w; reflexivity.
  - unfold bind, print in *. cbn. rewrite IH. cbn.
    rewrite <- !app_assoc. reflexivity.
Qed.

Lemma validate_direction_wall (p : Point) (w : World) :
  hits_wall (game w) p = true ->
  validate_direction p w = Ok tt (crashed w).
Proof. intros H. unfold validate_direction. run. rewrite H. reflexivity. Qed.

Lemma validate_direction_body (p : Point) (w : World) :
  hits_wall (game w) p = false ->
  hits_body (game w) p = true ->
  validate_direction p w = Ok tt (crashed w).
Proof.
  intros H1 H2. unfold validate_direction. run. rewrite H1, H2. reflexivity.
Qed.

Lemma validate_direction_apple (p t : Point) (rest : list Point) (w : World) :
  hits_wall (game w) p = false ->
  hits_body (game w) p = false ->
  on_apple (game w) p = true ->
  body (snake (game w)) = t :: rest ->
  validate_direction p w = Ok tt (grown t w).
Proof.
  intros H1 H2 H3 Hb.
  unfold validate_direction, spawn_apple, update_score, tail, randint. run.
  rewrite H1, H2, H3, Hb. cbn. unfold grown.
  rewrite <- !app_assoc. cbn. reflexivity.
Qed.

Lemma validate_direction_apple_empty (p : Point) (w : World) :
  hits_wall (game w) p = false ->
  hits_body (game w) p = false ->
  on_apple (game w) p = true ->
  body (snake (game w)) = [] ->
  exists w', validate_direction p w = Raise IndexError w'.
Proof.
  intros H1 H2 H3 Hb.
  unfold validate_direction, spawn_apple, update_score, tail, randint. run.
  rewrite H1, H2, H3, Hb. cbn. eauto.
Qed.

Lemma validate_direction_free (p : Point) (w : World) :
  hits_wall (game w) p = false ->
  hits_body (game w) p = false ->
  on_apple (game w) p = false ->
  validate_direction p w = Ok tt w.
Proof.
  intros H1 H2 H3. unfold validate_direction. run.
  rewrite H1, H2, H3. reflexivity.
Qed.

Lemma move_after_validate (d : option Direction) (w w1 : World) :
  body (snake (game w)) <> [] ->
  validate_direction (next_head d w) w = Ok tt w1 ->
  move d w = Ok tt (slid (heading d w) (next_head d w) w1).
Proof.
  intros Hne Hv. unfold move. unfold bind at 1. unfold self at 1.
  unfold bind at 1. rewrite (head_ok w Hne).
  fold (heading d w). fold (next_head d w).
  unfold bind at 1. rewrite Hv.
  unfold body_pop0, tail. run.
  destruct (body (snake (game w1)) ++ [next_head d w]) as [|t b] eqn:Happ.
  - destruct (body (snake (game w1))); discriminate.
  - cbn. rewrite for_each_repaint. cbn. unfold slid. rewrite Happ. cbn.
    rewrite <- !app_assoc. reflexivity.
Qed.

Lemma move_empty (d : option Direction) (w : World) :
  body (snake (game w)) = [] -> move d w = Raise IndexError w.
Proof.
  intros He. unfold move. unfold bind at 1. unfold self at 1.
  unfold bind at 1. rewrite (head_empty w He). reflexivity.
Qed.

(** [validate_direction] returns normally on every non-empty body. *)
Lemma validate_direction_total (p : Point) (w : World) :
  body (snake (game w)) <> [] ->
  exists w1, validate_direction p w = Ok tt w1.
Proof.
  intros Hne.
  destruct (hits_wall (game w) p) eqn:H1.
  { eexists. apply validate_direction_wall; assumption. }
  destruct (hits_body (game w) p) eqn:H2.
  { eexists. apply validate_direction_body; assumption. }
  destruct (on_apple (game w) p) eqn:H3.
  - destruct (body (snake (game w))) as [|t rest] eqn:Hb; [congruence|].
    eexists. eapply validate_direction_apple; eassumption.
  - eexists. apply validate_direction_free; assumption.
Qed.

(** Within [move] the point that the apple branch put at index 0 is the
    element [pop(0)] takes away again: a growing move leaves the old
    body in place and adds the new head. *)
Lemma move_growth_body (d : option Direction) (w : World) :
  body (snake (game w)) <> [] ->
  eats (game w) (next_head d w) = true ->
  exists w',
    move d w = Ok tt w' /\
    body (snake (game w')) = body (snake (game w)) ++ [next_head d w].
Proof.
  intros Hne He. unfold eats in He.
  apply andb_true_iff in He. destruct He as [He Ha].
  apply andb_true_iff in He. destruct He as [Hw Hb].
  apply negb_true_iff in Hw, Hb.
  destruct (body (snake (game w))) as [|t rest] eqn:Ebody; [congruence|].
  exists (slid (heading d w) (next_head d w) (grown t w)). split.
  - apply move_after_validate; [rewrite Ebody; discriminate|].
    eapply validate_direction_apple; eassumption.
  - cbn. rewrite Ebody. reflexivity.
Qed.

(** ** The tests of [validate_direction], as propositions *)

Lemma Point_eqb_eq (a b : Point) : Point_eqb a b = true <-> a = b.
Proof.
  unfold Point_eqb. rewrite andb_true_iff, !Z.eqb_eq.
  destruct a, b; cbn. split; [intros [-> ->]; reflexivity|].
  intros E; injection E; auto.
Qed.

Lemma hits_wall_iff (g : Game) (p : Point) :
  hits_wall g p = true <->
  x p <= 0 \/ x p >= height g - 1 \/ y p <= 0 \/ y p >= width g - 1.
Proof.
  unfold hits_wall. rewrite !orb_true_iff, !Z.leb_le, !Z.geb_le. lia.
Qed.

Lemma hits_body_iff (g : Game) (p : Point) :
  hits_body g p = true <->
  exists b, In b (removelast (body (snake g))) /\ x b = x p /\ y b = y p.
Proof.
  unfold hits_body. rewrite existsb_exists.
  split; intros [b [Hin H]]; exists b; split; auto.
  - apply andb_true_iff in H. rewrite !Z.eqb_eq in H. exact H.
  - apply andb_true_iff. rewrite !Z.eqb_eq. exact H.
Qed.

Lemma randint_of_range (a b raw : Z) :
  a <= b -> a <= randint_of a b raw <= b.
Proof.
  intros Hab. unfold randint_of.
  pose proof (Z.mod_pos_bound raw (b - a + 1)). lia.
Qed.

(** ** Body length across a move (C1) *)

(** C1: on a non-empty body, [move] returns; when the new head is not on
    the apple the body length is the same after as before, whatever the
    collision tests said; when the new head is on the apple and neither
    the wall nor the body test fired, the length is one greater. *)
Theorem move_body_length (d : option Direction) (w : World) :
  body (snake (game w)) <> [] ->
  exists w',
    move d w = Ok tt w' /\
    (next_head d w <> position (apple (game w)) ->
     List.length (body (snake (game w'))) = List.length (body (snake (game w)))) /\
    (next_head d w = position (apple (game w)) ->
     hits_wall (game w) (next_head d w) = false ->
     hits_body (game w) (next_head d w) = false ->
     List.length (body (snake (game w'))) = S (List.length (body (snake (game w))))).
Proof.
  intros Hne. set (p := next_head d w).
  assert (Hlen : forall w1, body (snake (game w1)) <> [] ->
            List.length (body (snake (game (slid (heading d w) p w1))))
            = List.length (body (snake (game w1)))).
  { intros w1 H1. cbn. destruct (body (snake (game w1))) as [|t b]; [congruence|].
    cbn. rewrite length_app. cbn. lia. }
  destruct (hits_wall (game w) p) eqn:H1;
    [|destruct (hits_body (game w) p) eqn:H2;
      [|destruct (on_apple (game w) p) eqn:H3]].
  - exists (slid (heading d w) p (crashed w)). split; [|split].
    + apply move_after_validate; [assumption|].
      apply validate_direction_wall; assumption.
    + intros _. apply (Hlen (crashed w)). exact Hne.
    + intros _ H. discriminate.
  - exists (slid (heading d w) p (crashed w)). split; [|split].
    + apply move_after_validate; [assumption|].
      apply validate_direction_body; assumption.
    + intros _. apply (Hlen (crashed w)). exact Hne.
    + intros _ _ H. discriminate.
  - destruct (body (snake (game w))) as [|t rest] eqn:Hb; [congruence|].
    exists (slid (heading d w) p (grown t w)). split; [|split].
    + apply move_after_validate; [rewrite Hb; discriminate|].
      eapply validate_direction_apple; eassumption.
    + intros Hp. exfalso. apply Hp. apply Point_eqb_eq. exact H3.
    + intros _ _ _. rewrite Hlen; [|cbn; discriminate].
      cbn. rewrite Hb. reflexivity.
  - exists (slid (heading d w) p w). split; [|split].
    + apply move_after_validate; [assumption|].
      apply validate_direction_free; assumption.
    + intros _. apply Hlen. exact Hne.
    + intros Hp. apply Point_eqb_eq in Hp. unfold on_apple in H3. congruence.
Qed.

(** The first timed move of a 44 by 44 game keeps the four body points. *)
Lemma move_body_length_witness :
  exists w',
    move None (fresh 44 44 (fun _ => 7)) = Ok tt w' /\
    List.length (body (snake (game w'))) = 4%nat.
Proof.
  destruct (move_body_length None (fresh 44 44 (fun _ => 7)))
    as [w' [Hm [Hsame _]]].
  - cbn. discriminate.
  - exists w'. split; [exact Hm|]. rewrite Hsame; [reflexivity|].
    cbn. discriminate.
Defined.

(** ** Wall collision (C2) *)

(** C2: when the new head is on or beyond an outer row or column,
    [validate_direction] returns with [game_over] set, and apple, score,
    speed, snake, generator and terminal are as they were. *)
Theorem validate_direction_wall_collision (new_head : Point) (w : World) :
  x new_head <= 0 \/ x new_head >= height (game w) - 1 \/
  y new_head <= 0 \/ y new_head >= width (game w) - 1 ->
  exists w',
    validate_direction new_head w = Ok tt w' /\
    game_over (game w') = true /\
    apple (game w') = apple (game w) /\
    score (game w') = score (game w) /\
    speed (game w') = speed (game w) /\
    snake (game w') = snake (game w) /\
    height (game w') = height (game w) /\
    width (game w') = width (game w) /\
    random w' = random w /\
    terminal w' = terminal w.
Proof.
  intros H. apply hits_wall_iff in H.
  exists (crashed w). split.
  - apply validate_direction_wall. exact H.
  - cbn. repeat split.
Qed.

(** Row 0 of a 44 by 44 game is a wall. *)
Lemma validate_direction_wall_collision_witness :
  exists w',
    validate_direction (mkPoint 0 3) (fresh 44 44 (fun _ => 7)) = Ok tt w' /\
    game_over (game w') = true /\
    snake (game w') = snake (Game_init 44 44).
Proof.
  destruct (validate_direction_wall_collision
              (mkPoint 0 3) (fresh 44 44 (fun _ => 7)))
    as [w' [Hv [Hg [_ [_ [_ [Hs _]]]]]]].
  - left. cbn. lia.
  - exists w'. auto.
Defined.

(** ** A move into a wall (C3) *)

(** C3, as stated, fails: the next head [(4,0)] of [at_left_wall] is a
    wall cell and [move] sets [game_over], yet the body after the call
    is not the body before it. *)
Lemma move_into_wall_changes_body :
  hits_wall (game at_left_wall) (next_head None at_left_wall) = true /\
  exists w',
    move None at_left_wall = Ok tt w' /\
    game_over (game w') = true /\
    body (snake (game at_left_wall))
      = [mkPoint 3 3; mkPoint 4 3; mkPoint 4 2; mkPoint 4 1] /\
    body (snake (game w'))
      = [mkPoint 4 3; mkPoint 4 2; mkPoint 4 1; mkPoint 4 0] /\
    body (snake (game w')) <> body (snake (game at_left_wall)).
Proof.
  split; [vm_compute; reflexivity|].
  exists (world_of (move None at_left_wall)).
  split; [vm_compute; reflexivity|].
  split; [vm_compute; reflexivity|].
  split; [vm_compute; reflexivity|].
  split; [vm_compute; reflexivity|].
  vm_compute. intros H. discriminate H.
Qed.

(** C3, amended: when the next head is a wall cell, [validate_direction]
    sets [game_over] and leaves the snake alone, and [move] then still
    appends the new head and pops the first element: the body after the
    call is the body before without its first element, followed by the
    new head, so of the same length. *)
Theorem move_into_wall (d : option Direction) (w : World) :
  body (snake (game w)) <> [] ->
  hits_wall (game w) (next_head d w) = true ->
  exists w1 w',
    validate_direction (next_head d w) w = Ok tt w1 /\
    snake (game w1) = snake (game w) /\
    move d w = Ok tt w' /\
    game_over (game w') = true /\
    body (snake (game w'))
      = List.tl (body (snake (game w))) ++ [next_head d w] /\
    List.length (body (snake (game w')))
      = List.length (body (snake (game w))).
Proof.
  intros Hne Hw.
  pose proof (validate_direction_wall _ _ Hw) as Hv.
  exists (crashed w), (slid (heading d w) (next_head d w) (crashed w)).
  split; [exact Hv|]. split; [reflexivity|].
  split; [apply move_after_validate; assumption|].
  split; [reflexivity|].
  cbn. destruct (body (snake (game w))) as [|t b]; [congruence|].
  cbn. split; [reflexivity|].
  rewrite length_app. cbn. lia.
Qed.

(** The move from [at_left_wall] into column 0. *)
Lemma move_into_wall_witness :
  exists w',
    move None at_left_wall = Ok tt w' /\
    game_over (game w') = true /\
    body (snake (game w'))
      = [mkPoint 4 3; mkPoint 4 2; mkPoint 4 1; mkPoint 4 0].
Proof.
  destruct (move_into_wall None at_left_wall)
    as [w1 [w' [_ [_ [Hm [Hg [Hb _]]]]]]].
  - vm_compute. discriminate.
  - vm_compute. reflexivity.
  - exists w'. split; [exact Hm|]. split; [exact Hg|].
    rewrite Hb. vm_compute. reflexivity.
Defined.

(** ** Self collision (C4) *)

(** C4: for a new head that passes the wall test, let a collision be a
    body element other than the last with the new head's coordinates.
    On a collision [validate_direction] returns having set [game_over]
    and changed nothing else; without one it leaves [game_over] as it
    was; so from a running game [game_over] is true afterwards exactly
    on a collision. *)
Theorem validate_direction_self_collision (new_head : Point) (w : World) :
  hits_wall (game w) new_head = false ->
  let collision :=
    exists b, In b (removelast (body (snake (game w)))) /\
              x b = x new_head /\ y b = y new_head in
  (collision ->
   validate_direction new_head w
   = Ok tt (mkWorld (set_game_over true (game w)) (random w) (terminal w))) /\
  (~ collision ->
   game_over (game (world_of (validate_direction new_head w)))
   = game_over (game w)) /\
  (game_over (game w) = false ->
   (game_over (game (world_of (validate_direction new_head w))) = true
    <-> collision)).
Proof.
  intros Hw collision.
  assert (Hyes : collision ->
            validate_direction new_head w = Ok tt (crashed w)).
  { intros Hc. apply validate_direction_body; [exact Hw|].
    apply hits_body_iff. exact Hc. }
  assert (Hno : ~ collision ->
            game_over (game (world_of (validate_direction new_head w)))
            = game_over (game w)).
  { intros Hc.
    assert (Hb : hits_body (game w) new_head = false).
    { destruct (hits_body (game w) new_head) eqn:E; [|reflexivity].
      exfalso. apply Hc. apply hits_body_iff. exact E. }
    destruct (on_apple (game w) new_head) eqn:Ha.
    - unfold validate_direction, spawn_apple, update_score, tail, randint.
      run. rewrite Hw, Hb, Ha.
      destruct (body (snake (game w))); reflexivity.
    - rewrite validate_direction_free by assumption. reflexivity. }
  split; [exact Hyes|]. split; [exact Hno|].
  intros Hrun. split.
  - intros Hafter.
    destruct (hits_body (game w) new_head) eqn:E.
    + apply hits_body_iff. exact E.
    + assert (Hc : ~ collision).
      { intros Hc. apply hits_body_iff in Hc. congruence. }
      rewrite (Hno Hc) in Hafter. congruence.
  - intros Hc. rewrite (Hyes Hc). reflexivity.
Qed.

(** At the start of a game [(2,3)] is a body cell that is not the head. *)
Lemma validate_direction_self_collision_witness :
  validate_direction (mkPoint 2 3) (fresh 44 44 (fun _ => 7))
  = Ok tt (mkWorld (set_game_over true (Game_init 44 44))
                   (mkRng (fun _ => 7) 0) []).
Proof.
  apply (validate_direction_self_collision
           (mkPoint 2 3) (fresh 44 44 (fun _ => 7))).
  - vm_compute. reflexivity.
  - exists (mkPoint 2 3). cbn. auto.
Defined.

(** ** Apple consumption (C5, C8) *)

(** C5: when the new head passes the wall and body tests and is the
    apple position, [validate_direction] returns having moved the apple
    to the cell the two draws of [randint(1, 40)] give, put one more
    point at the front of the body, set [speed] to
    [max(0.05, speed * 0.9)] and added one to [score]; the new apple
    position is the eaten one exactly when the draws return it again. *)
Theorem validate_direction_apple_consumption (new_head : Point) (w : World) :
  body (snake (game w)) <> [] ->
  hits_wall (game w) new_head = false ->
  hits_body (game w) new_head = false ->
  new_head = position (apple (game w)) ->
  exists w' ax ay growth,
    validate_direction new_head w = Ok tt w' /\
    ax = randint_of 1 40 (tape (random w) (cursor (random w))) /\
    ay = randint_of 1 40 (tape (random w) (S (cursor (random w)))) /\
    1 <= ax <= 40 /\ 1 <= ay <= 40 /\
    position (apple (game w')) = mkPoint ax ay /\
    body (snake (game w')) = growth :: body (snake (game w)) /\
    speed (game w')
      = py_max 0.05
               (speed (game w) * 0.9)%float /\
    score (game w') = score (game w) + 1 /\
    game_over (game w') = game_over (game w) /\
    (position (apple (game w')) = new_head <-> mkPoint ax ay = new_head).
Proof.
  intros Hne Hw Hb Hp.
  destruct (body (snake (game w))) as [|t rest] eqn:Ebody; [congruence|].
  assert (Ha : on_apple (game w) new_head = true).
  { apply Point_eqb_eq. exact Hp. }
  exists (grown t w).
  exists (randint_of 1 40 (tape (random w) (cursor (random w)))).
  exists (randint_of 1 40 (tape (random w) (S (cursor (random w))))).
  exists (mkPoint (x t + 1) (y t + 1)).
  split; [eapply validate_direction_apple; eassumption|].
  split; [reflexivity|]. split; [reflexivity|].
  split; [apply randint_of_range; lia|].
  split; [apply randint_of_range; lia|].
  split; [reflexivity|].
  split; [cbn; rewrite Ebody; reflexivity|].
  split; [reflexivity|]. split; [reflexivity|]. split; [reflexivity|].
  cbn. tauto.
Qed.

(** Eating the first apple at [(20,20)] when both raw draws are 7. *)
Lemma validate_direction_apple_consumption_witness :
  exists w',
    validate_direction (mkPoint 20 20) (fresh 44 44 (fun _ => 7)) = Ok tt w' /\
    position (apple (game w')) = mkPoint 8 8 /\
    score (game w') = 1 /\
    speed (game w') = 0.45%float.
Proof.
  destruct (validate_direction_apple_consumption
              (mkPoint 20 20) (fresh 44 44 (fun _ => 7)))
    as [w' [ax [ay [gp [Hv [Hx [Hy [_ [_ [Hp [_ [Hs [Hn _]]]]]]]]]]]]].
  - cbn. discriminate.
  - vm_compute. reflexivity.
  - vm_compute. reflexivity.
  - reflexivity.
  - exists w'. split; [exact Hv|].
    split; [rewrite Hp, Hx, Hy; reflexivity|].
    split; [rewrite Hn; reflexivity|].
    rewrite Hs. vm_compute. reflexivity.
Defined.

(** C8: on an apple consumption the point put at index 0 of the body is
    [(tail.x + 1, tail.y + 1)], the tail plus [(1,1)], for [tail] the
    first element of the body; it is not the tail moved by the vector of
    any direction, so neither along nor against the direction of
    travel. *)
Theorem growth_point_is_tail_plus_diagonal
        (new_head t : Point) (rest : list Point) (w : World) :
  body (snake (game w)) = t :: rest ->
  hits_wall (game w) new_head = false ->
  hits_body (game w) new_head = false ->
  on_apple (game w) new_head = true ->
  exists w',
    validate_direction new_head w = Ok tt w' /\
    body (snake (game w')) = mkPoint (x t + 1) (y t + 1) :: t :: rest /\
    nth_error (body (snake (game w'))) 0 = Some (Point_add t (mkPoint 1 1)) /\
    forall d, Point_add t (mkPoint 1 1) <> Point_add t (DIRECTION_VECTORS d).
Proof.
  intros Hb Hw Hs Ha. exists (grown t w).
  split; [eapply validate_direction_apple; eassumption|].
  split; [cbn; rewrite Hb; reflexivity|].
  split; [reflexivity|].
  intros d E. unfold Point_add in E.
  destruct d; cbn in E; injection E; intros; lia.
Qed.

(** With the tail at [(1,3)] the point put in front is [(2,4)]. *)
Lemma growth_point_is_tail_plus_diagonal_witness :
  exists w',
    validate_direction (mkPoint 20 20) (fresh 44 44 (fun _ => 7)) = Ok tt w' /\
    nth_error (body (snake (game w'))) 0 = Some (mkPoint 2 4).
Proof.
  destruct (growth_point_is_tail_plus_diagonal
              (mkPoint 20 20) (mkPoint 1 3)
              [mkPoint 2 3; mkPoint 3 3; mkPoint 4 3]
              (fresh 44 44 (fun _ => 7)))
    as [w' [Hv [_ [Hn _]]]]; try reflexivity.
  exists w'. split; [exact Hv|]. rewrite Hn. reflexivity.
Defined.

(** ** Direction changes (C6) *)

(** C6: [opposite_directions] is an involution; a key that [CONTROLS]
    maps to the opposite of the snake's direction makes [get_movement]
    return with the world as it was (no move, same direction), and so
    does a key that maps to the direction itself. *)
Theorem get_movement_rejects :
  (forall d, opposite_directions (opposite_directions d) = d) /\
  (forall key d w,
      dict_get CONTROLS (lower key) = Some d ->
      d = opposite_directions (direction (snake (game w))) ->
      get_movement key w = Ok tt w) /\
  (forall key d w,
      dict_get CONTROLS (lower key) = Some d ->
      d = direction (snake (game w)) ->
      get_movement key w = Ok tt w).
Proof.
  split; [intros d; destruct d; reflexivity|].
  split; intros key d w Hk Hd; unfold get_movement, bind, self, ret;
    rewrite Hk; destruct (negb _); try reflexivity; subst d;
    destruct (direction (snake (game w))); reflexivity.
Qed.

(** Heading [DOWN], the keys [W] and [s] change nothing. *)
Lemma get_movement_rejects_witness :
  get_movement "W" (fresh 44 44 (fun _ => 7))
    = Ok tt (fresh 44 44 (fun _ => 7)) /\
  get_movement "s" (fresh 44 44 (fun _ => 7))
    = Ok tt (fresh 44 44 (fun _ => 7)).
Proof.
  split.
  - apply (proj1 (proj2 get_movement_rejects) "W"%string UP); reflexivity.
  - apply (proj2 (proj2 get_movement_rejects) "s"%string DOWN); reflexivity.
Defined.

(** ** The first timed move (C9) *)

(** C9: the game of a 44 by 44 terminal starts with body
    [(1,3),(2,3),(3,3),(4,3)], direction [DOWN] and the apple at
    [(20,20)]; one [move()] without a direction returns with the head at
    [(5,3)], the tail [(1,3)] gone, four body points and [game_over]
    still false. *)
Theorem first_move_from_start (r : Rng) (out : list TermEvent) :
  let w := mkWorld (Game_init 44 44) r out in
  body (snake (game w)) = [mkPoint 1 3; mkPoint 2 3; mkPoint 3 3; mkPoint 4 3] /\
  direction (snake (game w)) = DOWN /\
  position (apple (game w)) = mkPoint 20 20 /\
  exists w',
    move None w = Ok tt w' /\
    head w' = Ok (mkPoint 5 3) w' /\
    body (snake (game w'))
      = [mkPoint 2 3; mkPoint 3 3; mkPoint 4 3; mkPoint 5 3] /\
    ~ In (mkPoint 1 3) (body (snake (game w'))) /\
    List.length (body (snake (game w'))) = 4%nat /\
    direction (snake (game w')) = DOWN /\
    game_over (game w') = false.
Proof.
  cbn zeta. split; [reflexivity|]. split; [reflexivity|]. split; [reflexivity|].
  exists (world_of (move None (mkWorld (Game_init 44 44) r out))).
  split; [vm_compute; reflexivity|].
  split; [vm_compute; reflexivity|].
  split; [vm_compute; reflexivity|].
  split; [|split; [|split]; vm_compute; reflexivity].
  vm_compute. intros H.
  repeat (destruct H as [H|H]; [discriminate H|]). exact H.
Qed.

(** ** Where the apple lands (C7) *)

Lemma Point_eq_dec (a b : Point) : {a = b} + {a <> b}.
Proof. decide equality; apply Z.eq_dec. Defined.

Lemma spawn_apple_eq (w : World) :
  let r := random w in
  let ax := randint_of 1 40 (tape r (cursor r)) in
  let ay := randint_of 1 40 (tape r (S (cursor r))) in
  spawn_apple w
  = Ok tt (mkWorld (set_apple_position (mkPoint ax ay) (game w))
                   (mkRng (tape r) (S (S (cursor r))))
                   (terminal w ++ [CursorTo (ax + 1) (ay + 1); Put AppleGlyph])).
Proof.
  unfold spawn_apple, randint. run. rewrite <- app_assoc. reflexivity.
Qed.

Lemma spawn_outcomes_closed (g : Game) :
  spawn_outcomes g
  = map (fun '(r1, r2) => mkPoint (randint_of 1 40 r1) (randint_of 1 40 r2))
        (list_prod residues residues).
Proof.
  unfold spawn_outcomes. apply map_ext. intros [r1 r2]. reflexivity.
Qed.

Lemma square_once :
  forallb (fun c =>
             Nat.eqb (count_occ Point_eq_dec
                        (map (fun '(r1, r2) =>
                                mkPoint (randint_of 1 40 r1) (randint_of 1 40 r2))
                             (list_prod residues residues)) c) 1)
          square = true.
Proof. vm_compute. reflexivity. Qed.

Lemma in_square (i j : Z) :
  1 <= i <= 40 -> 1 <= j <= 40 -> In (mkPoint i j) square.
Proof.
  intros Hi Hj. unfold square.
  apply in_map_iff. exists (i, j). split; [reflexivity|].
  apply in_prod; apply in_map_iff.
  - exists (Z.to_nat i). split; [lia|]. apply in_seq. lia.
  - exists (Z.to_nat j). split; [lia|]. apply in_seq. lia.
Qed.

(** C7: [spawn_apple] always returns, with the apple at the cell given
    by two successive draws of [randint(1, 40)], both coordinates within
    1..40, and nothing else of the game changed: neither [width] and
    [height] nor the snake body are read.  Over one period of the two
    raw draws every cell of the 40 by 40 square comes out exactly once,
    whatever the game (each axis uniform, the axes independent).  The
    apple can land on a cell of the snake. *)
Theorem spawn_apple_range :
  (forall w, exists w',
      spawn_apple w = Ok tt w' /\
      position (apple (game w'))
        = mkPoint (randint_of 1 40 (tape (random w) (cursor (random w))))
                  (randint_of 1 40 (tape (random w) (S (cursor (random w))))) /\
      1 <= x (position (apple (game w'))) <= 40 /\
      1 <= y (position (apple (game w'))) <= 40 /\
      snake (game w') = snake (game w) /\
      height (game w') = height (game w) /\
      width (game w') = width (game w) /\
      score (game w') = score (game w) /\
      speed (game w') = speed (game w) /\
      game_over (game w') = game_over (game w)) /\
  (forall g i j,
      1 <= i <= 40 -> 1 <= j <= 40 ->
      count_occ Point_eq_dec (spawn_outcomes g) (mkPoint i j) = 1%nat) /\
  (forall g, List.length (spawn_outcomes g) = 1600%nat) /\
  (exists w w',
      spawn_apple w = Ok tt w' /\
      height (game w) = 44 /\ width (game w) = 44 /\
      In (position (apple (game w'))) (body (snake (game w')))).
Proof.
  split; [|split; [|split]].
  - intros w. eexists. split; [apply spawn_apple_eq|].
    cbn -[randint_of]. split; [reflexivity|].
    split; [apply randint_of_range; lia|].
    split; [apply randint_of_range; lia|].
    repeat split.
  - intros g i j Hi Hj. rewrite spawn_outcomes_closed.
    pose proof square_once as H. rewrite forallb_forall in H.
    apply Nat.eqb_eq. apply H. apply in_square; assumption.
  - intros g. rewrite spawn_outcomes_closed. rewrite length_map.
    vm_compute. reflexivity.
  - exists (mkWorld (Game_init 44 44) (drawing 1 2) []).
    eexists. split; [apply spawn_apple_eq|].
    split; [reflexivity|]. split; [reflexivity|].
    cbn. right. left. reflexivity.
Qed.

(** ** The speed over a game (C10) *)

Lemma get_movement_eq (key : string) (w : World) :
  get_movement key w =
  match dict_get CONTROLS (lower key) with
  | None => Ok tt w
  | Some d =>
      if Direction_eqb d (opposite_directions (direction (snake (game w))))
      then Ok tt w
      else if Direction_eqb d (direction (snake (game w)))
      then Ok tt w
      else move (Some d) w
  end.
Proof.
  unfold get_movement, bind, self, ret, CONTROLS, dict_get, existsb.
  destruct (String.eqb (lower key) "w"), (String.eqb (lower key) "a"),
    (String.eqb (lower key) "s"), (String.eqb (lower key) "d");
    cbn [negb orb];
    repeat match goal with
           | |- context [Direction_eqb ?a ?b] => destruct (Direction_eqb a b)
           end;
    reflexivity.
Qed.

(** What [validate_direction] does to body and speed. *)
Lemma validate_direction_effect (p : Point) (w w' : World) :
  body (snake (game w)) <> [] ->
  validate_direction p w = Ok tt w' ->
  body (snake (game w')) <> [] /\
  speed (game w')
  = if eats (game w) p then next_speed (speed (game w)) else speed (game w).
Proof.
  intros Hne Hv. unfold eats.
  destruct (hits_wall (game w) p) eqn:H1.
  { rewrite validate_direction_wall in Hv by assumption.
    injection Hv as <-. cbn. auto. }
  destruct (hits_body (game w) p) eqn:H2.
  { rewrite validate_direction_body in Hv by assumption.
    injection Hv as <-. cbn. auto. }
  destruct (on_apple (game w) p) eqn:H3.
  - destruct (body (snake (game w))) as [|t rest] eqn:Hb; [congruence|].
    rewrite (validate_direction_apple p t rest) in Hv by assumption.
    injection Hv as <-. cbn. split; [discriminate|reflexivity].
  - rewrite validate_direction_free in Hv by assumption.
    injection Hv as <-. cbn. auto.
Qed.

Lemma move_effect (d : option Direction) (w w' : World) :
  body (snake (game w)) <> [] ->
  move d w = Ok tt w' ->
  body (snake (game w')) <> [] /\
  speed (game w')
  = if eats (game w) (next_head d w)
    then next_speed (speed (game w)) else speed (game w).
Proof.
  intros Hne Hm.
  destruct (validate_direction_total (next_head d w) w Hne) as [w1 Hv].
  rewrite (move_after_validate d w w1 Hne Hv) in Hm. injection Hm as <-.
  destruct (validate_direction_effect _ _ _ Hne Hv) as [Hb Hs].
  split; [|exact Hs].
  cbn. destruct (body (snake (game w1))) as [|t b]; [congruence|].
  cbn. destruct b; discriminate.
Qed.

Lemma call_effect (op : Op) (w w' : World) :
  body (snake (game w)) <> [] ->
  call op w = Ok tt w' ->
  body (snake (game w')) <> [] /\
  speed (game w')
  = if consumes op w then next_speed (speed (game w)) else speed (game w).
Proof.
  intros Hne Hc. destruct op as [d|key|p| |]; cbn [call consumes] in *.
  - apply move_effect; assumption.
  - rewrite get_movement_eq in Hc.
    destruct (dict_get CONTROLS (lower key)) as [d|];
      [|injection Hc as <-; auto].
    destruct (Direction_eqb d (opposite_directions _));
      [injection Hc as <-; auto|].
    destruct (Direction_eqb d (direction _));
      [injection Hc as <-; auto|].
    cbn. apply move_effect; assumption.
  - apply validate_direction_effect; assumption.
  - pose proof (spawn_apple_eq w) as H. cbv zeta in H. rewrite H in Hc.
    injection Hc as <-. cbn. auto.
  - unfold update_score in Hc. revert Hc. run. intros Hc.
    injection Hc as <-. cbn. auto.
Qed.

(** Every call returns on a non-empty body. *)
Lemma call_total (op : Op) (w : World) :
  body (snake (game w)) <> [] -> exists w', call op w = Ok tt w'.
Proof.
  intros Hne.
  assert (Hmove : forall d, exists w', move d w = Ok tt w').
  { intros d. destruct (validate_direction_total (next_head d w) w Hne) as [w1 Hv].
    eexists. apply (move_after_validate d w w1 Hne Hv). }
  destruct op as [d|key|p| |]; cbn [call].
  - apply Hmove.
  - rewrite get_movement_eq.
    destruct (dict_get CONTROLS (lower key)) as [d|]; [|eauto].
    destruct (Direction_eqb d (opposite_directions _)); [eauto|].
    destruct (Direction_eqb d (direction _)); [eauto|]. apply Hmove.
  - apply validate_direction_total. exact Hne.
  - eexists. apply spawn_apple_eq.
  - unfold update_score. run. eauto.
Qed.

(** The invariant of a game: a non-empty body, and a speed that is one
    of the levels. *)
Lemma reachable_invariant (w : World) :
  reachable w ->
  body (snake (game w)) <> [] /\ exists n, speed (game w) = level n.
Proof.
  induction 1 as [gw gh r out|op w w' Hr [Hne [n Hn]] Hc].
  - split; [cbn; discriminate|]. exists 0%nat. reflexivity.
  - destruct (call_effect op w w' Hne Hc) as [Hb Hs]. split; [exact Hb|].
    destruct (consumes op w).
    + exists (S n). rewrite Hs, Hn. reflexivity.
    + exists n. congruence.
Qed.

(** *** The levels, by evaluation *)

Lemma level_floor : level 22 = 0.05%float.
Proof. vm_compute. reflexivity. Qed.

Lemma level_after_floor (n : nat) :
  (22 <= n)%nat -> level n = 0.05%float.
Proof.
  induction 1 as [|n Hle IH]; [exact level_floor|].
  change (level (S n)) with (next_speed (level n)).
  rewrite IH. vm_compute. reflexivity.
Qed.

Lemma level_table :
  forallb (fun n =>
     PrimFloat.leb 0.05 (level n)
     && PrimFloat.leb (level n) 0.5
     && forallb (fun m => PrimFloat.leb (level m) (level n))
                (seq n (23 - n)))
    (seq 0 23) = true.
Proof. vm_compute. reflexivity. Qed.

Lemma level_bounds (n : nat) :
  PrimFloat.leb 0.05 (level n) = true /\
  PrimFloat.leb (level n) 0.5 = true.
Proof.
  pose proof level_table as T. rewrite forallb_forall in T.
  destruct (Nat.le_gt_cases n 22) as [Hle|Hgt].
  - specialize (T n). rewrite in_seq in T.
    assert (H : (0 <= n < 0 + 23)%nat) by lia.
    apply T in H. rewrite !andb_true_iff in H. tauto.
  - rewrite level_after_floor by lia. split; vm_compute; reflexivity.
Qed.

Lemma level_antitone (n m : nat) :
  (n <= m)%nat -> PrimFloat.leb (level m) (level n) = true.
Proof.
  intros Hnm.
  assert (Hsmall : forall a b, (a <= b)%nat -> (b <= 22)%nat ->
            PrimFloat.leb (level b) (level a) = true).
  { intros a b Hab Hb. pose proof level_table as T.
    rewrite forallb_forall in T. specialize (T a). rewrite in_seq in T.
    assert (H : (0 <= a < 0 + 23)%nat) by lia.
    apply T in H. rewrite !andb_true_iff in H. destruct H as [_ H].
    rewrite forallb_forall in H. apply H. apply in_seq. lia. }
  destruct (Nat.le_gt_cases m 22) as [Hm|Hm]; [apply Hsmall; assumption|].
  rewrite (level_after_floor m) by lia.
  destruct (Nat.le_gt_cases n 22) as [Hn|Hn].
  - rewrite <- level_floor. apply Hsmall; [exact Hn|lia].
  - rewrite (level_after_floor n) by lia. vm_compute. reflexivity.
Qed.

(** A run of calls only moves the speed down the levels. *)
Lemma run_levels (ops : list Op) (w w' : World) (n : nat) :
  body (snake (game w)) <> [] ->
  speed (game w) = level n ->
  for_each ops call w = Ok tt w' ->
  exists m, (n <= m)%nat /\ speed (game w') = level m.
Proof.
  revert w n. induction ops as [|op ops IH]; intros w n Hne Hn Hrun.
  - cbn in Hrun. unfold ret in Hrun. injection Hrun as <-. exists n. auto.
  - cbn in Hrun. unfold bind in Hrun.
    destruct (call op w) as [[] w1|e w1] eqn:Hc; [|discriminate].
    destruct (call_effect op w w1 Hne Hc) as [Hb Hs].
    destruct (consumes op w).
    + assert (Hs1 : speed (game w1) = level (S n)).
      { rewrite Hs, Hn. reflexivity. }
      destruct (IH w1 (S n) Hb Hs1 Hrun) as [m [Hm Hsm]].
      exists m. split; [lia|exact Hsm].
    + assert (Hs1 : speed (game w1) = level n) by congruence.
      exact (IH w1 n Hb Hs1 Hrun).
Qed.

(** C10: in every reachable world [0.05 <= speed <= 0.5]; a call that
    returns sets [speed] to [max(0.05, speed * 0.9)] when it reaches the
    apple branch and leaves it as it was otherwise, so never raises it;
    and after any run of calls the speed is at most what it was. *)
Theorem speed_bounded_and_antitone (w : World) :
  reachable w ->
  PrimFloat.leb 0.05 (speed (game w)) = true /\
  PrimFloat.leb (speed (game w)) 0.5 = true /\
  (forall op, exists w', call op w = Ok tt w') /\
  (forall op w',
      call op w = Ok tt w' ->
      speed (game w')
      = (if consumes op w
         then py_max 0.05
                     (speed (game w) * 0.9)%float
         else speed (game w)) /\
      PrimFloat.leb (speed (game w')) (speed (game w)) = true) /\
  (forall ops w',
      for_each ops call w = Ok tt w' ->
      PrimFloat.leb (speed (game w')) (speed (game w)) = true).
Proof.
  intros Hr. destruct (reachable_invariant w Hr) as [Hne [n Hn]].
  rewrite Hn.
  split; [apply level_bounds|]. split; [apply level_bounds|].
  split; [intros op; apply call_total; exact Hne|]. split.
  - intros op w' Hc. destruct (call_effect op w w' Hne Hc) as [_ Hs].
    rewrite Hn in Hs. split; [exact Hs|]. rewrite Hs.
    destruct (consumes op w).
    + change (next_speed (level n)) with (level (S n)).
      apply level_antitone. lia.
    + apply level_antitone. lia.
  - intros ops w' Hrun.
    destruct (run_levels ops w w' n Hne Hn Hrun) as [m [Hm Hs]].
    rewrite Hs. apply level_antitone. exact Hm.
Qed.

(** The starting speed 0.5 is within the bounds. *)
Lemma speed_bounded_and_antitone_witness :
  PrimFloat.leb 0.05
                (speed (game (fresh 44 44 (fun _ => 7)))) = true /\
  PrimFloat.leb (speed (game (fresh 44 44 (fun _ => 7)))) 0.5 = true.
Proof.
  destruct (speed_bounded_and_antitone (fresh 44 44 (fun _ => 7)))
    as [Hlo [Hhi _]].
  - apply reach_init.
  - split; assumption.
Defined.

(** ** Closed forms of the calls *)

Lemma validate_direction_eq (p : Point) (w : World) :
  body (snake (game w)) <> [] ->
  validate_direction p w = Ok tt (validated p w).
Proof.
  intros Hne. unfold validated.
  destruct (body (snake (game w))) as [|t rest] eqn:Hb; [congruence|].
  destruct (hits_wall (game w) p) eqn:H1;
    [apply validate_direction_wall; assumption|].
  destruct (hits_body (game w) p) eqn:H2;
    [apply validate_direction_body; assumption|].
  destruct (on_apple (game w) p) eqn:H3.
  - eapply validate_direction_apple; eassumption.
  - apply validate_direction_free; assumption.
Qed.

Lemma move_eq (d : option Direction) (w : World) :
  body (snake (game w)) <> [] -> move d w = Ok tt (moved d w).
Proof.
  intros Hne. apply move_after_validate; [exact Hne|].
  apply validate_direction_eq. exact Hne.
Qed.

Lemma call_eq (op : Op) (w : World) :
  body (snake (game w)) <> [] -> call op w = Ok tt (after op w).
Proof.
  intros Hne. destruct op as [d|key|p| |]; cbn [call after].
  - apply move_eq. exact Hne.
  - rewrite get_movement_eq.
    destruct (dict_get CONTROLS (lower key)) as [d|]; [|reflexivity].
    destruct (Direction_eqb d (opposite_directions _)); [reflexivity|].
    destruct (Direction_eqb d (direction _)); [reflexivity|].
    apply move_eq. exact Hne.
  - apply validate_direction_eq. exact Hne.
  - apply spawn_apple_eq.
  - unfold update_score. run. rewrite <- app_assoc. reflexivity.
Qed.

(** [validated] field by field. *)
Lemma validated_body (p : Point) (w : World) :
  body (snake (game (validated p w)))
  = if eats (game w) p
    then match body (snake (game w)) with
         | [] => []
         | t :: rest => mkPoint (x t + 1) (y t + 1) :: t :: rest
         end
    else body (snake (game w)).
Proof.
  unfold validated, eats.
  destruct (body (snake (game w))) as [|t rest] eqn:Hb.
  - destruct (negb _ && negb _ && _); congruence.
  - destruct (hits_wall (game w) p); [cbn; assumption|].
    destruct (hits_body (game w) p); [cbn; assumption|].
    destruct (on_apple (game w) p); cbn; [rewrite Hb; reflexivity|assumption].
Qed.

Lemma moved_body (d : option Direction) (w : World) :
  body (snake (game w)) <> [] ->
  body (snake (game (moved d w)))
  = (if eats (game w) (next_head d w)
     then body (snake (game w))
     else List.tl (body (snake (game w)))) ++ [next_head d w].
Proof.
  intros Hne. unfold moved. cbn. rewrite validated_body.
  destruct (body (snake (game w))) as [|t rest]; [congruence|].
  destruct (eats (game w) (next_head d w)); reflexivity.
Qed.

(** ** What a move does to the snake *)

Lemma last_point_app (l : list Point) (p : Point) :
  last_point (l ++ [p]) = p.
Proof. unfold last_point. apply last_last. Qed.

(** X1: on a non-empty body [move] returns; the body afterwards is the
    old body followed by the new head, without its first element unless
    the move ate the apple; the direction is the one moved in, and
    [head] is the new head, also after a collision. *)
Theorem move_result (d : option Direction) (w : World) :
  body (snake (game w)) <> [] ->
  exists w',
    move d w = Ok tt w' /\
    body (snake (game w'))
      = (if eats (game w) (next_head d w)
         then body (snake (game w))
         else List.tl (body (snake (game w)))) ++ [next_head d w] /\
    direction (snake (game w')) = heading d w /\
    head w' = Ok (next_head d w) w'.
Proof.
  intros Hne. exists (moved d w).
  split; [apply move_eq; exact Hne|].
  pose proof (moved_body d w Hne) as Hb.
  split; [exact Hb|]. split; [reflexivity|].
  rewrite head_ok.
  - rewrite Hb, last_point_app. reflexivity.
  - rewrite Hb. destruct (if eats _ _ then _ else _); discriminate.
Qed.

(** A timed move of a fresh 44 by 44 game ends with the head at (5,3). *)
Lemma move_result_witness :
  exists w',
    move None (fresh 44 44 (fun _ => 7)) = Ok tt w' /\
    head w' = Ok (mkPoint 5 3) w'.
Proof.
  destruct (move_result None (fresh 44 44 (fun _ => 7)))
    as [w' [Hm [_ [_ Hh]]]].
  - cbn. discriminate.
  - exists w'. split; [exact Hm|exact Hh].
Defined.

(** ** Invariants of a game *)

(** Each call adds to the score and to the body what it eats. *)
Lemma after_counts (op : Op) (w : World) :
  body (snake (game w)) <> [] ->
  score (game (after op w))
    = score (game w) + (if consumes op w then 1 else 0) /\
  List.length (body (snake (game (after op w))))
    = (List.length (body (snake (game w)))
       + (if consumes op w then 1 else 0))%nat.
Proof.
  intros Hne.
  assert (Hv : forall p,
    score (game (validated p w))
      = score (game w) + (if eats (game w) p then 1 else 0) /\
    List.length (body (snake (game (validated p w))))
      = (List.length (body (snake (game w)))
         + (if eats (game w) p then 1 else 0))%nat).
  { intros p. unfold validated, eats.
    destruct (body (snake (game w))) as [|t rest] eqn:Hb; [congruence|].
    destruct (hits_wall (game w) p); cbn; [rewrite Hb; cbn; lia|].
    destruct (hits_body (game w) p); cbn; [rewrite Hb; cbn; lia|].
    destruct (on_apple (game w) p); cbn; rewrite Hb; cbn; lia. }
  assert (Hm : forall d,
    score (game (moved d w))
      = score (game w) + (if eats (game w) (next_head d w) then 1 else 0) /\
    List.length (body (snake (game (moved d w))))
      = (List.length (body (snake (game w)))
         + (if eats (game w) (next_head d w) then 1 else 0))%nat).
  { intros d. split; [apply (Hv (next_head d w))|].
    rewrite moved_body by exact Hne.
    destruct (body (snake (game w))) as [|t rest]; [congruence|].
    destruct (eats _ _); rewrite length_app; cbn; lia. }
  destruct op as [d|key|p| |]; cbn [after consumes].
  - apply Hm.
  - destruct (dict_get CONTROLS (lower key)) as [d|]; [|split; lia].
    destruct (Direction_eqb d (opposite_directions _)); [cbn; split; lia|].
    destruct (Direction_eqb d (direction _)); [cbn; split; lia|].
    cbn [negb andb]. apply Hm.
  - apply Hv.
  - cbn. split; lia.
  - cbn. split; lia.
Qed.

Lemma reachable_counts (w : World) :
  reachable w ->
  0 <= score (game w) /\
  Z.of_nat (List.length (body (snake (game w)))) = 4 + score (game w) /\
  speed (game w) = level (Z.to_nat (score (game w))).
Proof.
  induction 1 as [gw gh r out|op w w' Hr [Hs [Hl Hv]] Hc].
  - cbn. split; [lia|]. split; reflexivity.
  - destruct (reachable_invariant w Hr) as [Hne _].
    destruct (call_effect op w w' Hne Hc) as [_ Hsp].
    rewrite (call_eq op w Hne) in Hc. injection Hc as <-.
    destruct (after_counts op w Hne) as [Hsc Hlen].
    rewrite Hsc, Hlen, Hsp. destruct (consumes op w).
    + split; [lia|]. split; [lia|].
      replace (score (game w) + 1) with (Z.succ (score (game w))) by lia.
      rewrite Z2Nat.inj_succ by exact Hs. rewrite Hv. reflexivity.
    + rewrite Z.add_0_r, Nat.add_0_r. auto.
Qed.

(** X2: in every reachable world the body has four points more than the
    score, and the score is not negative. *)
Theorem body_length_is_score_plus_four (w : World) :
  reachable w ->
  Z.of_nat (List.length (body (snake (game w)))) = 4 + score (game w) /\
  0 <= score (game w).
Proof.
  intros Hr. destruct (reachable_counts w Hr) as [Hs [Hl _]]. auto.
Qed.

(** After the first apple of a 44 by 44 game: score 1, five points. *)
Lemma body_length_is_score_plus_four_witness :
  Z.of_nat (List.length (body (snake (game
    (world_of (validate_direction (mkPoint 20 20)
                                  (fresh 44 44 (fun _ => 7))))))))
  = 4 + 1.
Proof.
  apply (body_length_is_score_plus_four
           (world_of (validate_direction (mkPoint 20 20)
                                         (fresh 44 44 (fun _ => 7))))).
  apply (reach_call (CallValidateDirection (mkPoint 20 20))
                    (fresh 44 44 (fun _ => 7))).
  - apply reach_init.
  - vm_compute. reflexivity.
Defined.

(** X3: in every reachable world the speed is fixed by the score: it is
    0.5 taken [score] times through [max(0.05, speed * 0.9)], which is
    0.05 from score 22 on. *)
Theorem speed_is_level_of_score (w : World) :
  reachable w ->
  speed (game w) = level (Z.to_nat (score (game w))) /\
  (22 <= score (game w) -> speed (game w) = 0.05%float).
Proof.
  intros Hr. destruct (reachable_counts w Hr) as [Hs [_ Hv]].
  split; [exact Hv|]. intros H22. rewrite Hv.
  apply level_after_floor. lia.
Qed.

(** At the start of a game the speed is the level of score 0. *)
Lemma speed_is_level_of_score_witness :
  speed (game (fresh 44 44 (fun _ => 7))) = level 0.
Proof.
  apply (speed_is_level_of_score (fresh 44 44 (fun _ => 7))).
  apply reach_init.
Defined.

(** The apple after a call is the apple before it or a cell of the
    40 by 40 square. *)
Lemma after_apple (op : Op) (w : World) :
  position (apple (game (after op w))) = position (apple (game w)) \/
  (1 <= x (position (apple (game (after op w)))) <= 40 /\
   1 <= y (position (apple (game (after op w)))) <= 40).
Proof.
  assert (Hv : forall p,
    position (apple (game (validated p w))) = position (apple (game w)) \/
    (1 <= x (position (apple (game (validated p w)))) <= 40 /\
     1 <= y (position (apple (game (validated p w)))) <= 40)).
  { intros p. unfold validated.
    destruct (body (snake (game w))) as [|t rest]; [left; reflexivity|].
    destruct (hits_wall (game w) p); [left; reflexivity|].
    destruct (hits_body (game w) p); [left; reflexivity|].
    destruct (on_apple (game w) p); [|left; reflexivity].
    right. cbn -[randint_of]. split; apply randint_of_range; lia. }
  destruct op as [d|key|p| |]; cbn [after].
  - apply (Hv (next_head d w)).
  - destruct (dict_get CONTROLS (lower key)) as [d|]; [|left; reflexivity].
    destruct (Direction_eqb d (opposite_directions _)); [left; reflexivity|].
    destruct (Direction_eqb d (direction _)); [left; reflexivity|].
    apply (Hv (next_head (Some d) w)).
  - apply Hv.
  - right. cbn -[randint_of]. split; apply randint_of_range; lia.
  - left. reflexivity.
Qed.

(** X4: in every reachable world both coordinates of the apple are
    within 1..40, whatever the width and height of the grid. *)
Theorem apple_within_forty (w : World) :
  reachable w ->
  1 <= x (position (apple (game w))) <= 40 /\
  1 <= y (position (apple (game w))) <= 40.
Proof.
  induction 1 as [gw gh r out|op w w' Hr IH Hc].
  - cbn. lia.
  - destruct (reachable_invariant w Hr) as [Hne _].
    rewrite (call_eq op w Hne) in Hc. injection Hc as <-.
    destruct (after_apple op w) as [He|Hin]; [rewrite He; exact IH|exact Hin].
Qed.

(** In a 10 by 10 game the first apple is at (20,20), off the grid. *)
Lemma apple_within_forty_witness :
  1 <= x (position (apple (game (fresh 10 10 (fun _ => 7))))) <= 40 /\
  hits_wall (game (fresh 10 10 (fun _ => 7)))
            (position (apple (game (fresh 10 10 (fun _ => 7))))) = true.
Proof.
  split.
  - apply (apple_within_forty (fresh 10 10 (fun _ => 7))). apply reach_init.
  - reflexivity.
Defined.

(** ** What calls leave alone *)

Lemma validated_cases (p : Point) (w : World) :
  eats (game w) p = false -> validated p w = w \/ validated p w = crashed w.
Proof.
  unfold validated, eats.
  destruct (body (snake (game w))) as [|t rest]; [auto|].
  destruct (hits_wall (game w) p); [auto|].
  destruct (hits_body (game w) p); [auto|].
  destruct (on_apple (game w) p); [discriminate|auto].
Qed.

(** A call never changes the grid and never clears [game_over]. *)
Lemma after_frame (op : Op) (w : World) :
  height (game (after op w)) = height (game w) /\
  width (game (after op w)) = width (game w) /\
  (game_over (game w) = true -> game_over (game (after op w)) = true).
Proof.
  assert (Hv : forall p,
    height (game (validated p w)) = height (game w) /\
    width (game (validated p w)) = width (game w) /\
    (game_over (game w) = true -> game_over (game (validated p w)) = true)).
  { intros p. unfold validated.
    destruct (body (snake (game w))) as [|t rest]; [auto|].
    destruct (hits_wall (game w) p); [cbn; auto|].
    destruct (hits_body (game w) p); [cbn; auto|].
    destruct (on_apple (game w) p); cbn; auto. }
  destruct op as [d|key|p| |]; cbn [after].
  - apply (Hv (next_head d w)).
  - destruct (dict_get CONTROLS (lower key)) as [d|]; [|auto].
    destruct (Direction_eqb d (opposite_directions _)); [auto|].
    destruct (Direction_eqb d (direction _)); [auto|].
    apply (Hv (next_head (Some d) w)).
  - apply Hv.
  - cbn. auto.
  - cbn. auto.
Qed.

Lemma after_nonempty (op : Op) (w : World) :
  body (snake (game w)) <> [] -> body (snake (game (after op w))) <> [].
Proof.
  intros Hne. apply (call_effect op w (after op w) Hne).
  apply call_eq. exact Hne.
Qed.

(** A property kept by every call is kept by a run of calls. *)
Lemma run_invariant (P : World -> Prop) (allowed : Op -> bool) :
  (forall op w, allowed op = true -> body (snake (game w)) <> [] ->
                P w -> P (after op w)) ->
  forall ops w w',
    body (snake (game w)) <> [] ->
    forallb allowed ops = true ->
    for_each ops call w = Ok tt w' ->
    P w -> P w' /\ body (snake (game w')) <> [].
Proof.
  intros Hstep ops. induction ops as [|op ops IH]; intros w w' Hne Hall Hrun HP.
  - cbn in Hrun. unfold ret in Hrun. injection Hrun as <-. auto.
  - cbn in Hall. apply andb_true_iff in Hall. destruct Hall as [Hop Hall].
    cbn in Hrun. unfold bind in Hrun. rewrite (call_eq op w Hne) in Hrun.
    apply (IH (after op w) w'); auto using after_nonempty.
Qed.

(** Every run of calls returns on a non-empty body. *)
Lemma run_total (ops : list Op) (w : World) :
  body (snake (game w)) <> [] -> exists w', for_each ops call w = Ok tt w'.
Proof.
  revert w. induction ops as [|op ops IH]; intros w Hne.
  - exists w. reflexivity.
  - cbn. unfold bind. rewrite (call_eq op w Hne).
    apply IH. apply after_nonempty. exact Hne.
Qed.

(** X5: [game_over] is final and the grid is fixed: after any run of
    calls from a world with a non-empty body, [height] and [width] are
    what they were, and [game_over] is still true if it was. *)
Theorem game_over_is_final (ops : list Op) (w : World) :
  body (snake (game w)) <> [] ->
  exists w',
    for_each ops call w = Ok tt w' /\
    height (game w') = height (game w) /\
    width (game w') = width (game w) /\
    (game_over (game w) = true -> game_over (game w') = true).
Proof.
  intros Hne. destruct (run_total ops w Hne) as [w' Hrun].
  exists w'. split; [exact Hrun|].
  apply (run_invariant
           (fun v => height (game v) = height (game w) /\
                     width (game v) = width (game w) /\
                     (game_over (game w) = true -> game_over (game v) = true))
           (fun _ => true)) with (ops := ops) (w := w); auto.
  - intros op v _ _ [Hh [Hw Hg]].
    destruct (after_frame op v) as [Hh' [Hw' Hg']].
    rewrite Hh', Hw'. auto.
  - clear. induction ops; cbn; auto.
Qed.

(** After the fatal move of [at_left_wall], two more moves and a key. *)
Lemma game_over_is_final_witness :
  exists w',
    for_each [CallMove None; CallMove None; CallGetMovement "w"] call
             (world_of (move None at_left_wall)) = Ok tt w' /\
    game_over (game w') = true.
Proof.
  destruct (game_over_is_final
              [CallMove None; CallMove None; CallGetMovement "w"%string]
              (world_of (move None at_left_wall)))
    as [w' [Hrun [_ [_ Hg]]]].
  - vm_compute. discriminate.
  - exists w'. split; [exact Hrun|]. apply Hg. vm_compute. reflexivity.
Defined.

(** The apple can only be eaten off the walls. *)
Lemma eats_off_wall (g : Game) (p : Point) :
  eats g p = true -> hits_wall g (position (apple g)) = false.
Proof.
  unfold eats. rewrite !andb_true_iff, negb_true_iff.
  intros [[Hw _] Ha]. apply Point_eqb_eq in Ha. rewrite <- Ha. exact Hw.
Qed.

Lemma play_keeps_stuck_apple (op : Op) (w : World) :
  is_play op = true ->
  hits_wall (game w) (position (apple (game w))) = true ->
  apple (game (after op w)) = apple (game w) /\
  score (game (after op w)) = score (game w) /\
  speed (game (after op w)) = speed (game w) /\
  height (game (after op w)) = height (game w) /\
  width (game (after op w)) = width (game w).
Proof.
  intros Hp Hw.
  assert (Hm : forall d,
    apple (game (moved d w)) = apple (game w) /\
    score (game (moved d w)) = score (game w) /\
    speed (game (moved d w)) = speed (game w) /\
    height (game (moved d w)) = height (game w) /\
    width (game (moved d w)) = width (game w)).
  { intros d. unfold moved.
    assert (He : eats (game w) (next_head d w) = false).
    { destruct (eats (game w) (next_head d w)) eqn:E; [|reflexivity].
      apply eats_off_wall in E. congruence. }
    destruct (validated_cases _ _ He) as [-> | ->]; cbn; auto. }
  destruct op as [d|key|p| |]; try discriminate; cbn [after].
  - apply Hm.
  - destruct (dict_get CONTROLS (lower key)) as [d|]; [|auto].
    destruct (Direction_eqb d (opposite_directions _)); [auto|].
    destruct (Direction_eqb d (direction _)); [auto|]. apply Hm.
Qed.

(** X6: an apple on a wall cell or off the grid is out of play: once the
    apple position fails the wall test, no run of [move] and
    [get_movement] calls changes the apple, the score or the speed. *)
Theorem apple_on_wall_is_never_eaten (ops : list Op) (w : World) :
  body (snake (game w)) <> [] ->
  hits_wall (game w) (position (apple (game w))) = true ->
  forallb is_play ops = true ->
  exists w',
    for_each ops call w = Ok tt w' /\
    apple (game w') = apple (game w) /\
    score (game w') = score (game w) /\
    speed (game w') = speed (game w).
Proof.
  intros Hne Hw Hplay. destruct (run_total ops w Hne) as [w' Hrun].
  exists w'. split; [exact Hrun|].
  assert (H : (apple (game w') = apple (game w) /\
               score (game w') = score (game w) /\
               speed (game w') = speed (game w) /\
               height (game w') = height (game w) /\
               width (game w') = width (game w)) /\
              body (snake (game w')) <> []).
  { apply (run_invariant
             (fun v => apple (game v) = apple (game w) /\
                       score (game v) = score (game w) /\
                       speed (game v) = speed (game w) /\
                       height (game v) = height (game w) /\
                       width (game v) = width (game w))
             is_play) with (ops := ops) (w := w); auto.
    intros op v Hop _ [Ha [Hs [Hv [Hh Hwd]]]].
    destruct (play_keeps_stuck_apple op v Hop) as [Ha' [Hs' [Hv' [Hh' Hwd']]]].
    - unfold hits_wall in *. rewrite Ha, Hh, Hwd. exact Hw.
    - rewrite Ha', Hs', Hv', Hh', Hwd'. auto. }
  tauto.
Qed.

(** On a 10 by 10 grid the first apple, at (20,20), stays where it is. *)
Lemma apple_on_wall_is_never_eaten_witness :
  exists w',
    for_each [CallMove None; CallGetMovement "d"; CallMove None] call
             (fresh 10 10 (fun _ => 7)) = Ok tt w' /\
    score (game w') = 0.
Proof.
  destruct (apple_on_wall_is_never_eaten
              [CallMove None; CallGetMovement "d"%string; CallMove None]
              (fresh 10 10 (fun _ => 7)))
    as [w' [Hrun [_ [Hs _]]]]; try reflexivity.
  - cbn. discriminate.
  - exists w'. split; [exact Hrun|exact Hs].
Defined.

(** ** Key presses *)

Lemma In_keys_dict (k : string) :
  ~ In k ["w"; "a"; "s"; "d"]%string -> dict_get CONTROLS k = None.
Proof.
  intros Hn. unfold CONTROLS, dict_get.
  destruct (String.eqb k "w") eqn:Ew;
    [apply String.eqb_eq in Ew; exfalso; apply Hn; cbn; auto|].
  destruct (String.eqb k "s") eqn:Es;
    [apply String.eqb_eq in Es; exfalso; apply Hn; cbn; auto|].
  destruct (String.eqb k "a") eqn:Ea;
    [apply String.eqb_eq in Ea; exfalso; apply Hn; cbn; auto|].
  destruct (String.eqb k "d") eqn:Ed;
    [apply String.eqb_eq in Ed; exfalso; apply Hn; cbn; auto|].
  reflexivity.
Qed.

Lemma move_never_KeyError (d : option Direction) (w w' : World) :
  move d w <> Raise KeyError w'.
Proof.
  destruct (body (snake (game w))) as [|t rest] eqn:Hb.
  - rewrite move_empty by exact Hb. discriminate.
  - rewrite move_eq by (rewrite Hb; discriminate). discriminate.
Qed.

(** X7: a key whose lower-case form is none of [w], [a], [s], [d] is
    ignored: [get_movement] returns with the world as it was; and no
    key at all makes the lookup in [CONTROLS] raise [KeyError]. *)
Theorem get_movement_ignores_other_keys :
  (forall key w,
      ~ In (lower key) ["w"; "a"; "s"; "d"]%string ->
      get_movement key w = Ok tt w) /\
  (forall key w w', get_movement key w <> Raise KeyError w').
Proof.
  split.
  - intros key w Hn. rewrite get_movement_eq.
    rewrite In_keys_dict by exact Hn. reflexivity.
  - intros key w w'. rewrite get_movement_eq.
    destruct (dict_get CONTROLS (lower key)) as [d|]; [|discriminate].
    destruct (Direction_eqb d (opposite_directions _)); [discriminate|].
    destruct (Direction_eqb d (direction _)); [discriminate|].
    apply move_never_KeyError.
Qed.

Lemma lower_ascii_idem (c : ascii) : lower_ascii (lower_ascii c) = lower_ascii c.
Proof.
  destruct c as [[] [] [] [] [] [] [] []]; vm_compute; reflexivity.
Qed.

Lemma lower_idem (s : string) : lower (lower s) = lower s.
Proof.
  induction s as [|c s IH]; cbn; [reflexivity|].
  rewrite lower_ascii_idem, IH. reflexivity.
Qed.

(** X8: [get_movement] does not tell the case of a key: a key and its
    lower-case form act alike, so [W], [A], [S], [D] steer like [w],
    [a], [s], [d]. *)
Theorem get_movement_ignores_case :
  (forall key w, get_movement key w = get_movement (lower key) w) /\
  (forall w, get_movement "W" w = get_movement "w" w) /\
  (forall w, get_movement "A" w = get_movement "a" w) /\
  (forall w, get_movement "S" w = get_movement "s" w) /\
  (forall w, get_movement "D" w = get_movement "d" w).
Proof.
  assert (H : forall key w, get_movement key w = get_movement (lower key) w).
  { intros key w. rewrite !get_movement_eq, lower_idem. reflexivity. }
  split; [exact H|].
  repeat split; intros w; rewrite H; reflexivity.
Qed.

(** X9: a key press never reverses the snake and, when it turns it,
    moves it: on a non-empty body [get_movement] returns, the direction
    afterwards is not the opposite of the direction before, and either
    the world is untouched or the call was [move] in the key's
    direction, a direction across the old one. *)
Theorem get_movement_never_reverses (key : string) (w : World) :
  body (snake (game w)) <> [] ->
  exists w',
    get_movement key w = Ok tt w' /\
    direction (snake (game w'))
      <> opposite_directions (direction (snake (game w))) /\
    (w' = w \/
     exists d,
       dict_get CONTROLS (lower key) = Some d /\
       d <> direction (snake (game w)) /\
       d <> opposite_directions (direction (snake (game w))) /\
       move (Some d) w = Ok tt w' /\
       direction (snake (game w')) = d).
Proof.
  intros Hne. rewrite get_movement_eq.
  assert (Hsame : direction (snake (game w))
                  <> opposite_directions (direction (snake (game w)))).
  { destruct (direction (snake (game w))); discriminate. }
  destruct (dict_get CONTROLS (lower key)) as [d|];
    [|exists w; repeat split; auto].
  destruct (Direction_eqb d (opposite_directions _)) eqn:E1;
    [exists w; repeat split; auto|].
  destruct (Direction_eqb d (direction _)) eqn:E2;
    [exists w; repeat split; auto|].
  exists (moved (Some d) w). rewrite move_eq by exact Hne.
  assert (H1 : d <> opposite_directions (direction (snake (game w)))).
  { intros ->. destruct (direction (snake (game w))); discriminate. }
  assert (H2 : d <> direction (snake (game w))).
  { intros ->. destruct (direction (snake (game w))); discriminate. }
  split; [reflexivity|]. split; [exact H1|].
  right. exists d. repeat split; auto. apply move_eq. exact Hne.
Qed.

(** Heading [DOWN], the key [d] turns the snake to the right. *)
Lemma get_movement_never_reverses_witness :
  exists w',
    get_movement "d" (fresh 44 44 (fun _ => 7)) = Ok tt w' /\
    direction (snake (game w')) <> UP.
Proof.
  destruct (get_movement_never_reverses "d" (fresh 44 44 (fun _ => 7)))
    as [w' [Hg [Hd _]]].
  - cbn. discriminate.
  - exists w'. split; [exact Hg|exact Hd].
Defined.

(** ** The shape of the snake *)

Lemma contiguous_tl (l : list Point) : contiguous l -> contiguous (List.tl l).
Proof.
  destruct l as [|a [|b l]]; cbn; auto. intros [_ H]. exact H.
Qed.

Lemma contiguous_app (l : list Point) (p : Point) :
  contiguous l -> (l <> [] -> adjacent (last_point l) p) ->
  contiguous (l ++ [p]).
Proof.
  induction l as [|a l IH]; intros Hc Hadj; [exact I|].
  destruct l as [|b l].
  - cbn. split; [|exact I]. apply Hadj. discriminate.
  - destruct Hc as [Hab Hc]. cbn [app]. split; [exact Hab|].
    apply IH; [exact Hc|]. intros _. apply Hadj. discriminate.
Qed.

Lemma last_point_tl (l : list Point) :
  List.tl l <> [] -> last_point (List.tl l) = last_point l.
Proof.
  destruct l as [|a [|b l]]; cbn; congruence.
Qed.

Lemma moved_contiguous (d : option Direction) (w : World) :
  body (snake (game w)) <> [] ->
  contiguous (body (snake (game w))) ->
  contiguous (body (snake (game (moved d w)))).
Proof.
  intros Hne Hc. rewrite moved_body by exact Hne.
  destruct (eats (game w) (next_head d w)).
  - apply contiguous_app; [exact Hc|].
    intros _. exists (heading d w). reflexivity.
  - apply contiguous_app; [apply contiguous_tl; exact Hc|].
    intros Ht. rewrite last_point_tl by exact Ht.
    exists (heading d w). reflexivity.
Qed.

Lemma played_invariant (w : World) :
  played w ->
  body (snake (game w)) <> [] /\ contiguous (body (snake (game w))).
Proof.
  induction 1 as [gw gh r out|op w w' Hp [Hne Hc] Hplay Hcall].
  - split; [cbn; discriminate|].
    cbn. repeat split; exists DOWN; reflexivity.
  - rewrite (call_eq op w Hne) in Hcall. injection Hcall as <-.
    split; [apply after_nonempty; exact Hne|].
    destruct op as [d|key|p| |]; try discriminate; cbn [after].
    + apply moved_contiguous; assumption.
    + destruct (dict_get CONTROLS (lower key)) as [d|]; [|exact Hc].
      destruct (Direction_eqb d (opposite_directions _)); [exact Hc|].
      destruct (Direction_eqb d (direction _)); [exact Hc|].
      apply moved_contiguous; assumption.
Qed.

(** X10: while a game is only played ([move] and [get_movement] calls
    from a fresh game), each body point is one unit step from the one
    before it, also right after an apple and after a collision: the
    point the apple branch inserts never outlives the move. *)
Theorem played_body_is_contiguous (w : World) :
  played w -> contiguous (body (snake (game w))).
Proof. intros Hp. apply played_invariant. exact Hp. Qed.

(** The body after the first timed move of a 44 by 44 game. *)
Lemma played_body_is_contiguous_witness :
  contiguous [mkPoint 2 3; mkPoint 3 3; mkPoint 4 3; mkPoint 5 3].
Proof.
  apply (played_body_is_contiguous
           (world_of (move None (fresh 44 44 (fun _ => 7))))).
  apply (played_call (CallMove None) (fresh 44 44 (fun _ => 7))).
  - apply played_init.
  - reflexivity.
  - vm_compute. reflexivity.
Defined.

(** ** An empty body *)

(** X11: on an empty body [move] raises [IndexError] before it changes
    anything, and a [validate_direction] that reaches the apple branch
    raises [IndexError] at [self.snake.tail], after [spawn_apple] has
    already moved the apple and used two draws, with score and speed
    still as they were. *)
Theorem empty_body_raises (w : World) :
  body (snake (game w)) = [] ->
  (forall d, move d w = Raise IndexError w) /\
  (forall p,
      hits_wall (game w) p = false ->
      p = position (apple (game w)) ->
      validate_direction p w = Raise IndexError (spawned w) /\
      score (game (spawned w)) = score (game w) /\
      speed (game (spawned w)) = speed (game w)).
Proof.
  intros He. split.
  - intros d. apply move_empty. exact He.
  - intros p Hw Hp. split; [|split; reflexivity].
    assert (Ha : on_apple (game w) p = true) by (apply Point_eqb_eq; exact Hp).
    clear Hp. destruct w as [[gh gw sp sc go [b dir] ap] r out].
    cbn in He. subst b.
    unfold validate_direction, spawn_apple, update_score, tail, randint,
      spawned.
    unfold bind, self, update, print, ret, raise.
    cbn -[randint_of hits_wall on_apple] in *.
    rewrite Hw. unfold hits_body. cbn -[randint_of hits_wall on_apple].
    rewrite Ha. rewrite <- app_assoc. reflexivity.
Qed.

(** A snake without a body on a 44 by 44 grid. *)
Lemma empty_body_raises_witness :
  move None (mkWorld (set_body [] (Game_init 44 44)) (mkRng (fun _ => 7) 0) [])
  = Raise IndexError
      (mkWorld (set_body [] (Game_init 44 44)) (mkRng (fun _ => 7) 0) []).
Proof.
  apply (empty_body_raises
           (mkWorld (set_body [] (Game_init 44 44)) (mkRng (fun _ => 7) 0) [])).
  reflexivity.
Defined.

(** ** The generator and the terminal *)

(** X12: a call reads the generator twice when it respawns the apple
    (a call of [spawn_apple], or one that reaches the apple branch) and
    not at all otherwise; the tape of draws itself is never changed. *)
Theorem draws_per_call (op : Op) (w : World) :
  body (snake (game w)) <> [] ->
  exists w',
    call op w = Ok tt w' /\
    tape (random w') = tape (random w) /\
    cursor (random w')
      = (cursor (random w)
         + (if match op with
                | CallSpawnApple => true
                | _ => consumes op w
                end
            then 2 else 0))%nat.
Proof.
  intros Hne. exists (after op w). split; [apply call_eq; exact Hne|].
  assert (Hv : forall p,
    tape (random (validated p w)) = tape (random w) /\
    cursor (random (validated p w))
      = (cursor (random w) + (if eats (game w) p then 2 else 0))%nat).
  { intros p. unfold validated, eats.
    destruct (body (snake (game w))) as [|t rest]; [congruence|].
    destruct (hits_wall (game w) p); cbn; [split; [reflexivity|lia]|].
    destruct (hits_body (game w) p); cbn; [split; [reflexivity|lia]|].
    destruct (on_apple (game w) p); cbn; split; try reflexivity; lia. }
  destruct op as [d|key|p| |]; cbn [after consumes].
  - apply (Hv (next_head d w)).
  - destruct (dict_get CONTROLS (lower key)) as [d|]; [|split; [reflexivity|lia]].
    destruct (Direction_eqb d (opposite_directions _));
      [cbn; split; [reflexivity|lia]|].
    destruct (Direction_eqb d (direction _));
      [cbn; split; [reflexivity|lia]|].
    cbn [negb andb]. apply (Hv (next_head (Some d) w)).
  - apply Hv.
  - cbn. split; [reflexivity|lia].
  - cbn. split; [reflexivity|lia].
Qed.

(** The first timed move of a 44 by 44 game draws nothing. *)
Lemma draws_per_call_witness :
  exists w',
    call (CallMove None) (fresh 44 44 (fun _ => 7)) = Ok tt w' /\
    cursor (random w') = 0%nat.
Proof.
  destruct (draws_per_call (CallMove None) (fresh 44 44 (fun _ => 7)))
    as [w' [Hc [_ Hn]]].
  - cbn. discriminate.
  - exists w'. split; [exact Hc|]. rewrite Hn. reflexivity.
Defined.

(** X13: what a move prints.  On a body that starts with [t], a move
    that does not eat blanks the cell of [t], paints every body point
    but the last as body, and paints the new head; a move that eats
    first prints the new apple and the score, then blanks the cell of
    [(t.x + 1, t.y + 1)], the point it inserted and pops, while [t]
    itself is painted as body again. *)
Theorem move_output (d : option Direction) (t : Point) (rest : list Point)
        (w : World) :
  body (snake (game w)) = t :: rest ->
  exists w',
    move d w = Ok tt w' /\
    terminal w'
    = terminal w
      ++ (if eats (game w) (next_head d w)
          then [CursorTo (x (position (apple (game w'))) + 1)
                         (y (position (apple (game w'))) + 1);
                Put AppleGlyph;
                CursorTo 1 4; Put (ScoreText (score (game w) + 1));
                CursorTo (x t + 1 + 1) (y t + 1 + 1); Put Blank]
               ++ repaint (t :: rest)
          else [CursorTo (x t + 1) (y t + 1); Put Blank] ++ repaint rest)
      ++ [CursorTo (x (next_head d w) + 1) (y (next_head d w) + 1);
          Put HeadGlyph].
Proof.
  intros Hb. exists (moved d w).
  split; [apply move_eq; rewrite Hb; discriminate|].
  unfold moved. generalize (heading d w) (next_head d w). intros nd nh.
  assert (Hslid : forall w1 t1 rest1,
    body (snake (game w1)) = t1 :: rest1 ->
    terminal (slid nd nh w1)
    = terminal w1 ++ ([CursorTo (x t1 + 1) (y t1 + 1); Put Blank]
                        ++ repaint rest1)
        ++ [CursorTo (x nh + 1) (y nh + 1); Put HeadGlyph]).
  { intros w1 t1 rest1 H1. unfold slid. cbn [terminal]. rewrite H1.
    cbn [app List.hd List.tl]. rewrite removelast_last.
    rewrite <- !app_assoc. reflexivity. }
  unfold validated, eats. rewrite Hb.
  destruct (hits_wall (game w) nh);
    [cbn [negb andb]; apply (Hslid (crashed w) t rest); exact Hb|].
  destruct (hits_body (game w) nh);
    [cbn [negb andb]; apply (Hslid (crashed w) t rest); exact Hb|].
  destruct (on_apple (game w) nh); cbn [negb andb].
  - rewrite (Hslid (grown t w) (mkPoint (x t + 1) (y t + 1)) (t :: rest)).
    + cbn -[randint_of repaint]. rewrite <- !app_assoc. reflexivity.
    + cbn. rewrite Hb. reflexivity.
  - apply (Hslid w t rest). exact Hb.
Qed.

(** The first timed move of a 44 by 44 game. *)
Lemma move_output_witness :
  exists w',
    move None (fresh 44 44 (fun _ => 7)) = Ok tt w' /\
    terminal w'
    = [CursorTo 2 4; Put Blank; CursorTo 3 4; Put BodyGlyph;
       CursorTo 4 4; Put BodyGlyph; CursorTo 5 4; Put BodyGlyph;
       CursorTo 6 4; Put HeadGlyph].
Proof.
  destruct (move_output None (mkPoint 1 3)
                        [mkPoint 2 3; mkPoint 3 3; mkPoint 4 3]
                        (fresh 44 44 (fun _ => 7)))
    as [w' [Hm Ht]]; [reflexivity|].
  exists w'. split; [exact Hm|]. rewrite Ht. reflexivity.
Defined.

(** ** Lists and the canvas *)

Lemma py_index_nonneg (len : nat) (i : Z) :
  0 <= i < Z.of_nat len -> py_index len i = Some (Z.to_nat i).
Proof.
  intros H. unfold py_index.
  replace ((0 <=? i) && (i <? Z.of_nat len)) with true; [reflexivity|].
  symmetry. apply andb_true_iff. split; [apply Z.leb_le|apply Z.ltb_lt]; lia.
Qed.

Lemma py_index_lt (len : nat) (i : Z) (n : nat) :
  py_index len i = Some n -> (n < len)%nat.
Proof.
  unfold py_index.
  destruct ((0 <=? i) && (i <? Z.of_nat len)) eqn:E1.
  - apply andb_true_iff in E1. destruct E1 as [H1 H2].
    apply Z.leb_le in H1. apply Z.ltb_lt in H2. intros [= <-]. lia.
  - destruct ((i <? 0) && (- Z.of_nat len <=? i)) eqn:E2; [|discriminate].
    apply andb_true_iff in E2. destruct E2 as [H1 H2].
    apply Z.ltb_lt in H1. apply Z.leb_le in H2. intros [= <-]. lia.
Qed.

Lemma py_index_valid (len : nat) (i : Z) :
  py_index len i <> None <-> valid_index (Z.of_nat len) i.
Proof.
  unfold py_index, valid_index.
  destruct ((0 <=? i) && (i <? Z.of_nat len)) eqn:E1.
  - apply andb_true_iff in E1. destruct E1 as [H1 H2].
    apply Z.leb_le in H1. apply Z.ltb_lt in H2.
    split; [lia|discriminate].
  - destruct ((i <? 0) && (- Z.of_nat len <=? i)) eqn:E2.
    + apply andb_true_iff in E2. destruct E2 as [H1 H2].
      apply Z.ltb_lt in H1. apply Z.leb_le in H2.
      split; [lia|discriminate].
    + split; [congruence|]. intros H. exfalso.
      apply andb_false_iff in E1. apply andb_false_iff in E2.
      rewrite Z.leb_gt, Z.ltb_ge in E1. rewrite Z.ltb_ge, Z.leb_gt in E2. lia.
Qed.

Lemma set_nth_length (A : Type) (n : nat) (v : A) (l : list A) :
  List.length (set_nth n v l) = List.length l.
Proof.
  revert n. induction l as [|a l IH]; intros [|n]; cbn; auto.
Qed.

Lemma nth_error_set_nth (A : Type) (n m : nat) (v : A) (l : list A) :
  (n < List.length l)%nat ->
  nth_error (set_nth n v l) m = if Nat.eqb m n then Some v else nth_error l m.
Proof.
  revert n m. induction l as [|a l IH]; intros n m Hn; cbn in Hn; [lia|].
  destruct n as [|n], m as [|m]; cbn; try reflexivity.
  apply IH. lia.
Qed.

Lemma Forall_set_nth (A : Type) (P : A -> Prop) (n : nat) (v : A) (l : list A) :
  Forall P l -> P v -> Forall P (set_nth n v l).
Proof.
  intros Hl Hv. revert n. induction Hl as [|a l Ha Hl IH]; intros [|n]; cbn;
    constructor; auto.
Qed.

Lemma shaped_row (h w : Z) (cv : Canvas) (n : nat) (row : list string) :
  shaped h w cv -> nth_error cv n = Some row ->
  Z.of_nat (List.length row) = w.
Proof.
  intros [_ Hall] Hn. rewrite Forall_forall in Hall.
  apply Hall. eapply nth_error_In. exact Hn.
Qed.

(** An assignment to a cell goes through exactly when both indices are
    accepted, and then repaints that one cell. *)
Lemma canvas_set_some (h w : Z) (cv : Canvas) (r c : Z) (rn cn : nat)
      (v : string) :
  shaped h w cv ->
  py_index (Z.to_nat h) r = Some rn ->
  py_index (Z.to_nat w) c = Some cn ->
  exists cv',
    canvas_set cv r c v = Some cv' /\
    paints h w cv cv' (put (Z.of_nat rn) (Z.of_nat cn) v).
Proof.
  intros Hs Hr Hc. pose proof Hs as [Hlen Hall].
  assert (Hh : List.length cv = Z.to_nat h) by lia.
  pose proof (py_index_lt _ _ _ Hr) as Hrn.
  destruct (nth_error cv rn) as [row|] eqn:Hrow;
    [|apply nth_error_None in Hrow; lia].
  pose proof (shaped_row h w cv rn row Hs Hrow) as Hw.
  assert (Hwl : List.length row = Z.to_nat w) by lia.
  pose proof (py_index_lt _ _ _ Hc) as Hcn.
  exists (set_nth rn (set_nth cn v row) cv). split.
  - unfold canvas_set, getitem, setitem, and_then.
    rewrite Hh, Hr, Hrow, Hwl, Hc. reflexivity.
  - split.
    + split; [rewrite set_nth_length; exact Hlen|].
      apply Forall_set_nth; [exact Hall|]. rewrite set_nth_length. exact Hw.
    + intros r' c' Hr' Hc'. unfold cell, getitem, and_then, put.
      rewrite set_nth_length, Hh.
      rewrite (py_index_nonneg (Z.to_nat h) r') by lia.
      rewrite nth_error_set_nth by lia.
      destruct (nth_error cv (Z.to_nat r')) as [row'|] eqn:Hrow';
        [|apply nth_error_None in Hrow'; lia].
      pose proof (shaped_row h w cv _ row' Hs Hrow') as Hw'.
      destruct (Nat.eqb (Z.to_nat r') rn) eqn:Er.
      * apply Nat.eqb_eq in Er. subst rn.
        assert (row' = row) by congruence. subst row'.
        rewrite set_nth_length, Hwl.
        rewrite (py_index_nonneg (Z.to_nat w) c') by lia.
        rewrite nth_error_set_nth by lia.
        replace (r' =? Z.of_nat (Z.to_nat r')) with true
          by (symmetry; apply Z.eqb_eq; lia).
        cbn [andb].
        destruct (Nat.eqb (Z.to_nat c') cn) eqn:Ec.
        -- apply Nat.eqb_eq in Ec. subst cn.
           replace (c' =? Z.of_nat (Z.to_nat c')) with true
             by (symmetry; apply Z.eqb_eq; lia).
           destruct (nth_error row (Z.to_nat c')) eqn:E;
             [reflexivity|apply nth_error_None in E; lia].
        -- apply Nat.eqb_neq in Ec.
           replace (c' =? Z.of_nat cn) with false
             by (symmetry; apply Z.eqb_neq; lia).
           destruct (nth_error row (Z.to_nat c')); reflexivity.
      * apply Nat.eqb_neq in Er.
        replace (r' =? Z.of_nat rn) with false
          by (symmetry; apply Z.eqb_neq; lia).
        cbn [andb].
        assert (Hwl' : List.length row' = Z.to_nat w) by lia.
        rewrite Hwl'. rewrite (py_index_nonneg (Z.to_nat w) c') by lia.
        destruct (nth_error row' (Z.to_nat c')); reflexivity.
Qed.

Lemma canvas_set_none (h w : Z) (cv : Canvas) (r c : Z) (v : string) :
  shaped h w cv ->
  py_index (Z.to_nat h) r = None \/ py_index (Z.to_nat w) c = None ->
  canvas_set cv r c v = None.
Proof.
  intros Hs Hbad. pose proof Hs as [Hlen Hall].
  assert (Hh : List.length cv = Z.to_nat h) by lia.
  unfold canvas_set, getitem, setitem, and_then. rewrite Hh.
  destruct (py_index (Z.to_nat h) r) as [rn|] eqn:Hr; [|reflexivity].
  destruct Hbad as [Hbad|Hbad]; [discriminate|].
  destruct (nth_error cv rn) as [row|] eqn:Hrow; [|reflexivity].
  pose proof (shaped_row h w cv rn row Hs Hrow) as Hw.
  assert (Hwl : List.length row = Z.to_nat w) by lia.
  rewrite Hwl, Hbad. reflexivity.
Qed.

Lemma canvas_set_valid (h w : Z) (cv : Canvas) (r c : Z) (v : string) :
  0 <= h -> 0 <= w ->
  shaped h w cv ->
  (canvas_set cv r c v <> None <-> valid_index h r /\ valid_index w c).
Proof.
  intros Hh Hw Hs.
  assert (Vh : forall i, py_index (Z.to_nat h) i <> None <-> valid_index h i).
  { intros i. rewrite py_index_valid, Z2Nat.id by exact Hh. reflexivity. }
  assert (Vw : forall i, py_index (Z.to_nat w) i <> None <-> valid_index w i).
  { intros i. rewrite py_index_valid, Z2Nat.id by exact Hw. reflexivity. }
  rewrite <- Vh, <- Vw. split.
  - intros Hset.
    destruct (py_index (Z.to_nat h) r) eqn:Hr;
      [|rewrite (canvas_set_none h w) in Hset; auto; congruence].
    destruct (py_index (Z.to_nat w) c) eqn:Hc;
      [|rewrite (canvas_set_none h w) in Hset; auto; congruence].
    split; discriminate.
  - intros [Hr Hc].
    destruct (py_index (Z.to_nat h) r) as [rn|] eqn:Er; [|congruence].
    destruct (py_index (Z.to_nat w) c) as [cn|] eqn:Ec; [|congruence].
    destruct (canvas_set_some h w cv r c rn cn v Hs Er Ec) as [cv' [H _]].
    rewrite H. discriminate.
Qed.

(** Repaintings compose. *)
Lemma paints_refl (h w : Z) (cv : Canvas) :
  shaped h w cv -> paints h w cv cv (fun _ _ old => old).
Proof.
  intros Hs. split; [exact Hs|]. intros r c _ _.
  destruct (cell cv r c); reflexivity.
Qed.

Lemma paints_trans (h w : Z) (cv1 cv2 cv3 : Canvas)
      (f g : Z -> Z -> string -> string) :
  paints h w cv1 cv2 f -> paints h w cv2 cv3 g ->
  paints h w cv1 cv3 (fun r c old => g r c (f r c old)).
Proof.
  intros [_ H12] [Hs H23]. split; [exact Hs|].
  intros r c Hr Hc. rewrite H23, H12 by assumption.
  destruct (cell cv1 r c); reflexivity.
Qed.

Lemma paints_ext (h w : Z) (cv cv' : Canvas)
      (f g : Z -> Z -> string -> string) :
  (forall r c old, 0 <= r < h -> 0 <= c < w -> f r c old = g r c old) ->
  paints h w cv cv' f -> paints h w cv cv' g.
Proof.
  intros Hfg [Hs H]. split; [exact Hs|].
  intros r c Hr Hc. rewrite H by assumption.
  destruct (cell cv r c); cbn; [rewrite Hfg by assumption|]; reflexivity.
Qed.

(** An assignment at accepted indices that are not negative. *)
Lemma canvas_set_put (h w : Z) (cv : Canvas) (r c : Z) (v : string) :
  shaped h w cv -> 0 <= r < h -> 0 <= c < w ->
  exists cv', canvas_set cv r c v = Some cv' /\ paints h w cv cv' (put r c v).
Proof.
  intros Hs Hr Hc.
  destruct (canvas_set_some h w cv r c (Z.to_nat r) (Z.to_nat c) v Hs)
    as [cv' [Hset Hp]]; try (apply py_index_nonneg; lia).
  exists cv'. split; [exact Hset|].
  rewrite !Z2Nat.id in Hp by lia. exact Hp.
Qed.

(** ** The loops of [render] *)

Lemma range_bounds (n : Z) : Forall (fun i => 0 <= i < Z.max 0 n) (range n).
Proof.
  unfold range. apply Forall_forall. intros i Hi.
  apply in_map_iff in Hi. destruct Hi as [k [<- Hk]].
  apply in_seq in Hk. lia.
Qed.

Lemma range_NoDup (n : Z) : NoDup (range n).
Proof.
  unfold range. apply NoDup_map_NoDup_ForallPairs; [|apply seq_NoDup].
  intros a b _ _ H. lia.
Qed.

Lemma range_mem (n i : Z) :
  0 <= i < n -> existsb (Z.eqb i) (range n) = true.
Proof.
  intros Hi. apply existsb_exists. exists i. split; [|apply Z.eqb_refl].
  unfold range. apply in_map_iff. exists (Z.to_nat i).
  split; [lia|]. apply in_seq. lia.
Qed.

Lemma existsb_eqb_In (i : Z) (l : list Z) :
  existsb (Z.eqb i) l = true <-> In i l.
Proof.
  rewrite existsb_exists. split.
  - intros [j [Hj E]]. apply Z.eqb_eq in E. subst. exact Hj.
  - intros Hi. exists i. split; [exact Hi|apply Z.eqb_refl].
Qed.

Lemma paint_cell_paints (g : Game) (h w : Z) (cv : Canvas) (row col : Z) :
  shaped h w cv -> 0 <= row < h -> 0 <= col < w ->
  exists cv',
    paint_cell g row col cv = Some cv' /\
    paints h w cv cv'
           (fun r c old => if (r =? row) && (c =? col)
                           then base g r c old else old).
Proof.
  intros Hs Hr Hc. unfold paint_cell.
  assert (Hfirst : exists cv1,
    (if (row =? 0) || (row =? height g - 1)
     then canvas_set cv row col "─"
     else if (col =? 0) || (col =? width g - 1)
          then canvas_set cv row col "│"
          else Some cv) = Some cv1 /\
    paints h w cv cv1
      (fun r c old =>
         if (r =? row) && (c =? col)
         then (if (r =? 0) || (r =? height g - 1) then "─"%string
               else if (c =? 0) || (c =? width g - 1) then "│"%string
               else old)
         else old)).
  { destruct ((row =? 0) || (row =? height g - 1)) eqn:E1;
      [|destruct ((col =? 0) || (col =? width g - 1)) eqn:E2].
    - destruct (canvas_set_put h w cv row col "─" Hs Hr Hc) as [cv1 [H1 P1]].
      exists cv1. split; [exact H1|].
      apply (paints_ext h w cv cv1 (put row col "─")); [|exact P1].
      intros r c old _ _. unfold put.
      destruct ((r =? row) && (c =? col)) eqn:E; [|reflexivity].
      apply andb_true_iff in E. destruct E as [Er Ec].
      apply Z.eqb_eq in Er, Ec. subst. rewrite E1. reflexivity.
    - destruct (canvas_set_put h w cv row col "│" Hs Hr Hc) as [cv1 [H1 P1]].
      exists cv1. split; [exact H1|].
      apply (paints_ext h w cv cv1 (put row col "│")); [|exact P1].
      intros r c old _ _. unfold put.
      destruct ((r =? row) && (c =? col)) eqn:E; [|reflexivity].
      apply andb_true_iff in E. destruct E as [Er Ec].
      apply Z.eqb_eq in Er, Ec. subst. rewrite E1, E2. reflexivity.
    - exists cv. split; [reflexivity|].
      apply (paints_ext h w cv cv (fun _ _ old => old));
        [|apply paints_refl; exact Hs].
      intros r c old _ _.
      destruct ((r =? row) && (c =? col)) eqn:E; [|reflexivity].
      apply andb_true_iff in E. destruct E as [Er Ec].
      apply Z.eqb_eq in Er, Ec. subst. rewrite E1, E2. reflexivity. }
  destruct Hfirst as [cv1 [H1 P1]]. rewrite H1. cbn [and_then].
  pose proof P1 as [Hs1 _].
  destruct (existsb (Point_eqb (mkPoint row col)) (body (snake g))) eqn:Eb.
  - destruct (canvas_set_put h w cv1 row col (GREEN ++ "0" ++ RESET) Hs1 Hr Hc)
      as [cv2 [H2 P2]].
    exists cv2. split; [exact H2|].
    eapply paints_ext; [|exact (paints_trans _ _ _ _ _ _ _ P1 P2)].
    intros r c old _ _. cbv beta. unfold put, base.
    destruct ((r =? row) && (c =? col)) eqn:E; [|reflexivity].
    apply andb_true_iff in E. destruct E as [Er Ec].
    apply Z.eqb_eq in Er, Ec. subst. rewrite Eb. reflexivity.
  - exists cv1. split; [reflexivity|].
    eapply paints_ext; [|exact P1].
    intros r c old _ _. cbv beta. unfold base.
    destruct ((r =? row) && (c =? col)) eqn:E; [|reflexivity].
    apply andb_true_iff in E. destruct E as [Er Ec].
    apply Z.eqb_eq in Er, Ec. subst. rewrite Eb. reflexivity.
Qed.

Lemma row_loop_paints (g : Game) (h w row : Z) (cs : list Z) :
  0 <= row < h ->
  Forall (fun c => 0 <= c < w) cs -> NoDup cs ->
  forall cv, shaped h w cv ->
  exists cv',
    for_each_cell cs (fun col => paint_cell g row col) cv = Some cv' /\
    paints h w cv cv'
           (fun r c old => if (r =? row) && existsb (Z.eqb c) cs
                           then base g r c old else old).
Proof.
  intros Hr Hall Hnd. induction cs as [|c0 cs IH]; intros cv Hs.
  - exists cv. split; [reflexivity|].
    eapply paints_ext; [|apply paints_refl; exact Hs].
    intros r c old _ _. cbn. rewrite andb_false_r. reflexivity.
  - inversion Hall as [|? ? Hc0 Hall']; subst.
    inversion Hnd as [|? ? Hnot Hnd']; subst.
    destruct (paint_cell_paints g h w cv row c0 Hs Hr Hc0) as [cv1 [H1 P1]].
    pose proof P1 as [Hs1 _].
    destruct (IH Hall' Hnd' cv1 Hs1) as [cv2 [H2 P2]].
    exists cv2. split; [cbn; rewrite H1; exact H2|].
    eapply paints_ext; [|exact (paints_trans _ _ _ _ _ _ _ P1 P2)].
    intros r c old _ _. cbv beta. cbn [existsb].
    destruct (r =? row) eqn:Er; cbn [andb]; [|reflexivity].
    destruct (existsb (Z.eqb c) cs) eqn:Ein.
    + assert (c <> c0).
      { intros ->. apply Hnot. apply existsb_eqb_In. exact Ein. }
      replace (c =? c0) with false by (symmetry; apply Z.eqb_neq; assumption).
      reflexivity.
    + rewrite orb_false_r. destruct (c =? c0); reflexivity.
Qed.

Lemma grid_loop_paints (g : Game) (h w : Z) (rs : list Z) :
  h = Z.max 0 (height g) -> w = Z.max 0 (width g) ->
  Forall (fun r => 0 <= r < h) rs -> NoDup rs ->
  forall cv, shaped h w cv ->
  exists cv',
    for_each_cell rs
      (fun row => for_each_cell (range (width g))
                    (fun col => paint_cell g row col)) cv = Some cv' /\
    paints h w cv cv'
           (fun r c old => if existsb (Z.eqb r) rs
                           then base g r c old else old).
Proof.
  intros Hh Hw Hall Hnd. induction rs as [|r0 rs IH]; intros cv Hs.
  - exists cv. split; [reflexivity|]. apply paints_refl. exact Hs.
  - inversion Hall as [|? ? Hr0 Hall']; subst.
    inversion Hnd as [|? ? Hnot Hnd']; subst.
    assert (Hcols : Forall (fun c => 0 <= c < Z.max 0 (width g))
                           (range (width g))) by apply range_bounds.
    destruct (row_loop_paints g _ _ r0 (range (width g)) Hr0 Hcols
                              (range_NoDup _) cv Hs) as [cv1 [H1 P1]].
    pose proof P1 as [Hs1 _].
    destruct (IH Hall' Hnd' cv1 Hs1) as [cv2 [H2 P2]].
    exists cv2. split; [cbn; rewrite H1; exact H2|].
    eapply paints_ext; [|exact (paints_trans _ _ _ _ _ _ _ P1 P2)].
    intros r c old _ Hc. cbv beta. cbn [existsb].
    rewrite (range_mem (width g) c) by lia. rewrite andb_true_r.
    destruct (existsb (Z.eqb r) rs) eqn:Ein.
    + assert (r <> r0).
      { intros ->. apply Hnot. apply existsb_eqb_In. exact Ein. }
      replace (r =? r0) with false by (symmetry; apply Z.eqb_neq; assumption).
      reflexivity.
    + rewrite orb_false_r. destruct (r =? r0); reflexivity.
Qed.

(** The two nested loops always run through, and leave [base] in every
    cell. *)
Lemma loops_paint (g : Game) (cv : Canvas) :
  shaped (Z.max 0 (height g)) (Z.max 0 (width g)) cv ->
  exists cv',
    for_each_cell (range (height g))
      (fun row => for_each_cell (range (width g))
                    (fun col => paint_cell g row col)) cv = Some cv' /\
    paints (Z.max 0 (height g)) (Z.max 0 (width g)) cv cv' (base g).
Proof.
  intros Hs.
  destruct (grid_loop_paints g _ _ (range (height g)) eq_refl eq_refl
                             (range_bounds _) (range_NoDup _) cv Hs)
    as [cv' [H P]].
  exists cv'. split; [exact H|].
  eapply paints_ext; [|exact P].
  intros r c old Hr _. cbv beta. rewrite range_mem by lia. reflexivity.
Qed.

(** *** The score text *)

Lemma enumerate_from_cons (k : nat) (a : ascii) (s : string) :
  enumerate_from k (String a s) = (Z.of_nat k, a) :: enumerate_from (S k) s.
Proof. reflexivity. Qed.

Lemma text_layer_enumerate (s : string) :
  forall (k : nat) (r c : Z) (old : string),
    text_layer (enumerate_from k s) r c old
    = if (r =? 0) && (Z.of_nat k + 3 <=? c)
         && (c <? Z.of_nat k + 3 + Z.of_nat (String.length s))
      then match String.get (Z.to_nat (c - 3 - Z.of_nat k)) s with
           | Some ch => String ch EmptyString
           | None => old
           end
      else old.
Proof.
  induction s as [|a s IH]; intros k r c old.
  - cbn. destruct ((r =? 0) && _ && _); reflexivity.
  - rewrite enumerate_from_cons. cbn [text_layer]. rewrite IH.
    unfold put. cbn [String.length].
    destruct (r =? 0) eqn:Er; cbn [andb]; [|reflexivity].
    destruct (Z.of_nat k + 3 <=? c) eqn:E1; cbn [andb].
    + apply Z.leb_le in E1.
      destruct (c =? Z.of_nat k + 3) eqn:E2.
      * apply Z.eqb_eq in E2.
        replace (Z.of_nat (S k) + 3 <=? c) with false
          by (symmetry; apply Z.leb_gt; lia).
        replace (c <? Z.of_nat k + 3 + Z.of_nat (S (String.length s)))
          with true by (symmetry; apply Z.ltb_lt; lia).
        cbn [andb].
        replace (Z.to_nat (c - 3 - Z.of_nat k)) with 0%nat by lia.
        reflexivity.
      * apply Z.eqb_neq in E2.
        replace (Z.of_nat (S k) + 3 <=? c) with true
          by (symmetry; apply Z.leb_le; lia).
        cbn [andb].
        replace (c <? Z.of_nat (S k) + 3 + Z.of_nat (String.length s))
          with (c <? Z.of_nat k + 3 + Z.of_nat (S (String.length s)))
          by (f_equal; lia).
        destruct (c <? Z.of_nat k + 3 + Z.of_nat (S (String.length s)));
          [|reflexivity].
        replace (Z.to_nat (c - 3 - Z.of_nat k))
          with (S (Z.to_nat (c - 3 - Z.of_nat (S k)))) by lia.
        reflexivity.
    + apply Z.leb_gt in E1.
      replace (Z.of_nat (S k) + 3 <=? c) with false
        by (symmetry; apply Z.leb_gt; lia).
      cbn [andb].
      replace (c =? Z.of_nat k + 3) with false
        by (symmetry; apply Z.eqb_neq; lia).
      reflexivity.
Qed.

Lemma text_loop_paints (h w : Z) (s : string) :
  1 <= h ->
  forall (k : nat) (cv : Canvas),
    shaped h w cv ->
    Z.of_nat k + Z.of_nat (String.length s) + 3 <= w ->
    exists cv',
      for_each_cell (enumerate_from k s)
        (fun '(i, char) cv =>
           canvas_set cv 0 (i + 3) (String char EmptyString)) cv = Some cv' /\
      paints h w cv cv' (text_layer (enumerate_from k s)).
Proof.
  intros Hh. induction s as [|a s IH]; intros k cv Hs Hfit.
  - exists cv. split; [reflexivity|]. apply paints_refl. exact Hs.
  - rewrite enumerate_from_cons. cbn [String.length] in Hfit.
    destruct (canvas_set_put h w cv 0 (Z.of_nat k + 3)
                             (String a EmptyString) Hs)
      as [cv1 [H1 P1]]; try lia.
    pose proof P1 as [Hs1 _].
    destruct (IH (S k) cv1 Hs1) as [cv2 [H2 P2]]; [lia|].
    exists cv2. split; [cbn [for_each_cell and_then]; rewrite H1; exact H2|].
    eapply paints_ext; [|exact (paints_trans _ _ _ _ _ _ _ P1 P2)].
    intros r c old _ _. reflexivity.
Qed.

Lemma canvas_set_cases (h w : Z) (cv : Canvas) (r c : Z) (v : string) :
  0 <= h -> 0 <= w -> shaped h w cv ->
  (canvas_set cv r c v = None /\ ~ (valid_index h r /\ valid_index w c)) \/
  (exists cv', canvas_set cv r c v = Some cv' /\ shaped h w cv' /\
               valid_index h r /\ valid_index w c).
Proof.
  intros Hh Hw Hs.
  pose proof (canvas_set_valid h w cv r c v Hh Hw Hs) as Hv.
  destruct (canvas_set cv r c v) as [cv'|] eqn:E.
  - right. exists cv'. assert (Hok : valid_index h r /\ valid_index w c).
    { apply Hv. discriminate. }
    destruct Hok as [Hr Hc]. split; [reflexivity|]. split; [|auto].
    destruct (py_index (Z.to_nat h) r) as [rn|] eqn:Er.
    2:{ rewrite (canvas_set_none h w) in E by auto. discriminate. }
    destruct (py_index (Z.to_nat w) c) as [cn|] eqn:Ec.
    2:{ rewrite (canvas_set_none h w) in E by auto. discriminate. }
    destruct (canvas_set_some h w cv r c rn cn v Hs Er Ec) as [cv2 [E2 [Hs2 _]]].
    congruence.
  - left. split; [reflexivity|]. intros Hok. apply Hv in Hok. congruence.
Qed.

Lemma text_loop_returns (h w : Z) (s : string) :
  1 <= h -> 0 <= w ->
  forall (k : nat) (cv : Canvas),
    shaped h w cv ->
    (for_each_cell (enumerate_from k s)
       (fun '(i, char) cv =>
          canvas_set cv 0 (i + 3) (String char EmptyString)) cv <> None
     <-> s = EmptyString \/
         Z.of_nat k + Z.of_nat (String.length s) + 3 <= w).
Proof.
  intros Hh Hw. induction s as [|a s IH]; intros k cv Hs.
  - cbn. split; [auto|discriminate].
  - rewrite enumerate_from_cons. cbn [for_each_cell String.length].
    destruct (canvas_set_cases h w cv 0 (Z.of_nat k + 3)
                               (String a EmptyString)) as [[E Hbad]|[cv1 [E [Hs1 Hok]]]];
      try assumption; try lia; rewrite E; cbn [and_then].
    + split; [congruence|]. intros [Hf|Hf]; [discriminate|].
      exfalso. apply Hbad. unfold valid_index. lia.
    + rewrite (IH (S k) cv1 Hs1). unfold valid_index in Hok.
      split.
      * intros [->|Hfit]; right; cbn [String.length]; lia.
      * intros [Hf|Hf]; [discriminate|]. right. lia.
Qed.

(** ** [render] *)

Lemma get_in_range (s : string) (n : nat) :
  (n < String.length s)%nat -> exists ch, String.get n s = Some ch.
Proof.
  revert n. induction s as [|a s IH]; intros n Hn; cbn in Hn; [lia|].
  destruct n as [|n]; cbn; [eauto|]. apply IH. lia.
Qed.

Lemma shown_composed (g : Game) (r c : Z) (old : string) :
  0 <= c ->
  text_layer (enumerate_from 0 (score_text g)) r c
    (put (x (position (apple g))) (y (position (apple g)))
         (RED ++ "*" ++ RESET) r c
      (put (x (last_point (body (snake g)))) (y (last_point (body (snake g))))
           (GREEN ++ "X" ++ RESET) r c
        (put (height g - 1) (width g - 1) "╯" r c
          (put (height g - 1) 0 "╰" r c
            (put 0 (width g - 1) "╮" r c
              (put 0 0 "╭" r c (base g r c old)))))))
  = shown g r c old.
Proof.
  intros Hc. rewrite text_layer_enumerate. unfold shown. cbv zeta.
  change (Z.of_nat 0) with 0. rewrite Z.sub_0_r.
  change (0 + 3) with 3.
  destruct ((r =? 0) && (3 <=? c)
            && (c <? 3 + Z.of_nat (String.length (score_text g)))) eqn:E;
    [|reflexivity].
  apply andb_true_iff in E. destruct E as [E E3].
  apply andb_true_iff in E. destruct E as [_ E2].
  apply Z.leb_le in E2. apply Z.ltb_lt in E3.
  destruct (get_in_range (score_text g) (Z.to_nat (c - 3))) as [ch ->]; [lia|].
  reflexivity.
Qed.

Lemma render_paints (g : Game) (cv : Canvas) :
  shaped (height g) (width g) cv ->
  body (snake g) <> [] ->
  1 <= height g ->
  0 <= x (last_point (body (snake g))) < height g ->
  0 <= y (last_point (body (snake g))) < width g ->
  0 <= x (position (apple g)) < height g ->
  0 <= y (position (apple g)) < width g ->
  Z.of_nat (String.length (score_text g)) + 3 <= width g ->
  exists cv',
    render g cv = Some (cv', map (String.concat "") cv') /\
    paints (height g) (width g) cv cv' (shown g).
Proof.
  intros Hs Hne Hh Hhx Hhy Hax Hay Hfit.
  assert (Hw : 3 <= width g) by lia.
  unfold render.
  destruct (rev_nonempty _ _ (mkPoint 0 0) Hne) as [tl_ ->].
  fold (last_point (body (snake g))). cbv zeta.
  assert (Hs0 : shaped (Z.max 0 (height g)) (Z.max 0 (width g)) cv).
  { rewrite !Z.max_r by lia. exact Hs. }
  destruct (loops_paint g cv Hs0) as [cv1 [E1 P1]].
  rewrite !Z.max_r in P1 by lia. rewrite E1. cbn [and_then].
  pose proof P1 as [Hs1 _].
  destruct (canvas_set_put _ _ cv1 0 0 "╭" Hs1) as [cv2 [E2 P2]]; try lia.
  rewrite E2. cbn [and_then]. pose proof P2 as [Hs2 _].
  destruct (canvas_set_put _ _ cv2 0 (width g - 1) "╮" Hs2)
    as [cv3 [E3 P3]]; try lia.
  rewrite E3. cbn [and_then]. pose proof P3 as [Hs3 _].
  destruct (canvas_set_put _ _ cv3 (height g - 1) 0 "╰" Hs3)
    as [cv4 [E4 P4]]; try lia.
  rewrite E4. cbn [and_then]. pose proof P4 as [Hs4 _].
  destruct (canvas_set_put _ _ cv4 (height g - 1) (width g - 1) "╯" Hs4)
    as [cv5 [E5 P5]]; try lia.
  rewrite E5. cbn [and_then]. pose proof P5 as [Hs5 _].
  destruct (canvas_set_put _ _ cv5 (x (last_point (body (snake g))))
                           (y (last_point (body (snake g))))
                           (GREEN ++ "X" ++ RESET) Hs5 Hhx Hhy)
    as [cv6 [E6 P6]].
  rewrite E6. cbn [and_then]. pose proof P6 as [Hs6 _].
  destruct (canvas_set_put _ _ cv6 (x (position (apple g)))
                           (y (position (apple g)))
                           (RED ++ "*" ++ RESET) Hs6 Hax Hay)
    as [cv7 [E7 P7]].
  rewrite E7. cbn [and_then]. pose proof P7 as [Hs7 _].
  destruct (text_loop_paints (height g) (width g) (score_text g) Hh 0 cv7 Hs7)
    as [cv8 [E8 P8]]; [lia|].
  change (enumerate ("Score: " ++ str (score g)))
    with (enumerate_from 0 (score_text g)).
  rewrite E8. cbn [and_then].
  exists cv8. split; [reflexivity|].
  pose proof (paints_trans _ _ _ _ _ _ _ P1 P2) as Q2.
  pose proof (paints_trans _ _ _ _ _ _ _ Q2 P3) as Q3.
  pose proof (paints_trans _ _ _ _ _ _ _ Q3 P4) as Q4.
  pose proof (paints_trans _ _ _ _ _ _ _ Q4 P5) as Q5.
  pose proof (paints_trans _ _ _ _ _ _ _ Q5 P6) as Q6.
  pose proof (paints_trans _ _ _ _ _ _ _ Q6 P7) as Q7.
  pose proof (paints_trans _ _ _ _ _ _ _ Q7 P8) as Q8.
  eapply paints_ext; [|exact Q8].
  intros r c old _ Hc. cbv beta. apply shown_composed. lia.
Qed.

Lemma render_returns (g : Game) (cv : Canvas) :
  shaped (Z.max 0 (height g)) (Z.max 0 (width g)) cv ->
  (render g cv <> None <->
   body (snake g) <> [] /\
   1 <= height g /\
   valid_index (height g) (x (last_point (body (snake g)))) /\
   valid_index (width g) (y (last_point (body (snake g)))) /\
   valid_index (height g) (x (position (apple g))) /\
   valid_index (width g) (y (position (apple g))) /\
   Z.of_nat (String.length (score_text g)) + 3 <= width g).
Proof.
  intros Hs. unfold render.
  destruct (body (snake g)) as [|b0 bs] eqn:Hb.
  { cbn. split; [congruence|]. intros [H _]. congruence. }
  assert (Hne : b0 :: bs <> []) by discriminate.
  destruct (rev_nonempty _ _ (mkPoint 0 0) Hne) as [tl_ ->].
  fold (last_point (b0 :: bs)). cbv zeta.
  set (hd := last_point (b0 :: bs)).
  set (hs := Z.max 0 (height g)) in *. set (ws := Z.max 0 (width g)) in *.
  assert (Hhs : 0 <= hs) by (unfold hs; lia).
  assert (Hws : 0 <= ws) by (unfold ws; lia).
  destruct (loops_paint g cv Hs) as [cv1 [E1 [Hs1 _]]].
  fold hs ws in Hs1. rewrite E1. cbn [and_then].
  change (enumerate ("Score: " ++ str (score g)))
    with (enumerate_from 0 (score_text g)).
  assert (Hlen : 7 <= Z.of_nat (String.length (score_text g))).
  { unfold score_text. cbn -[str]. lia. }
  destruct (canvas_set_cases hs ws cv1 0 0 "╭" Hhs Hws Hs1)
    as [[E Hbad]|[cv2 [E [Hs2 [V1 V2]]]]]; rewrite E; cbn [and_then].
  { split; [congruence|]. intros [_ H]. exfalso. apply Hbad.
    unfold valid_index, hs, ws in *. lia. }
  destruct (canvas_set_cases hs ws cv2 0 (width g - 1) "╮" Hhs Hws Hs2)
    as [[E' Hbad]|[cv3 [E' [Hs3 _]]]]; rewrite E'; cbn [and_then].
  { split; [congruence|]. intros [_ H]. exfalso. apply Hbad.
    unfold valid_index, hs, ws in *. lia. }
  destruct (canvas_set_cases hs ws cv3 (height g - 1) 0 "╰" Hhs Hws Hs3)
    as [[E3 Hbad]|[cv4 [E3 [Hs4 _]]]]; rewrite E3; cbn [and_then].
  { split; [congruence|]. intros [_ H]. exfalso. apply Hbad.
    unfold valid_index, hs, ws in *. lia. }
  destruct (canvas_set_cases hs ws cv4 (height g - 1) (width g - 1) "╯"
                             Hhs Hws Hs4)
    as [[E4 Hbad]|[cv5 [E4 [Hs5 _]]]]; rewrite E4; cbn [and_then].
  { split; [congruence|]. intros [_ H]. exfalso. apply Hbad.
    unfold valid_index, hs, ws in *. lia. }
  destruct (canvas_set_cases hs ws cv5 (x hd) (y hd) (GREEN ++ "X" ++ RESET)
                             Hhs Hws Hs5)
    as [[E5 Hbad]|[cv6 [E5 [Hs6 [V3 V4]]]]]; rewrite E5; cbn [and_then].
  { split; [congruence|]. intros [_ H]. exfalso. apply Hbad.
    unfold valid_index, hs, ws in *. lia. }
  destruct (canvas_set_cases hs ws cv6 (x (position (apple g)))
                             (y (position (apple g))) (RED ++ "*" ++ RESET)
                             Hhs Hws Hs6)
    as [[E6 Hbad]|[cv7 [E6 [Hs7 [V5 V6]]]]]; rewrite E6; cbn [and_then].
  { split; [congruence|]. intros [_ H]. exfalso. apply Hbad.
    unfold valid_index, hs, ws in *. lia. }
  assert (Hh1 : 1 <= hs) by (unfold valid_index in V1; lia).
  pose proof (text_loop_returns hs ws (score_text g) Hh1 Hws 0 cv7 Hs7) as T.
  destruct (for_each_cell (enumerate_from 0 (score_text g)) _ cv7) as [cv8|];
    cbn [and_then].
  - assert (Hfit : score_text g = EmptyString \/
                   Z.of_nat 0 + Z.of_nat (String.length (score_text g)) + 3 <= ws).
    { apply T. discriminate. }
    split; [|discriminate]. intros _.
    destruct Hfit as [Hf|Hf]; [rewrite Hf in Hlen; cbn in Hlen; lia|].
    split; [discriminate|]. unfold valid_index, hs, ws in *. lia.
  - split; [congruence|]. intros [_ H]. exfalso.
    assert (Hn : (None : option Canvas) <> None); [|congruence].
    apply T. right. unfold valid_index, hs, ws in *. lia.
Qed.

Lemma Game_canvas_shaped (w h : Z) :
  shaped (Z.max 0 h) (Z.max 0 w) (Game_canvas w h).
Proof.
  unfold shaped, Game_canvas. split.
  - rewrite repeat_length. lia.
  - apply Forall_forall. intros r Hr. apply repeat_spec in Hr. subst r.
    rewrite repeat_length. lia.
Qed.

(** X14: the frame [render] draws.  On a canvas of [height] rows of
    [width] cells, with a non-empty body, head and apple on the grid
    and room for the score text from column 3, [render] returns, prints
    the joined rows of the canvas it leaves, and leaves in each cell, by
    priority: the score text (row 0 from column 3), the apple, the head,
    a corner, the body, the border, and else what the cell held. *)
Theorem render_frame (g : Game) (cv : Canvas) :
  shaped (height g) (width g) cv ->
  body (snake g) <> [] ->
  1 <= height g ->
  0 <= x (last_point (body (snake g))) < height g ->
  0 <= y (last_point (body (snake g))) < width g ->
  0 <= x (position (apple g)) < height g ->
  0 <= y (position (apple g)) < width g ->
  Z.of_nat (String.length (score_text g)) + 3 <= width g ->
  exists cv',
    render g cv = Some (cv', map (String.concat "") cv') /\
    shaped (height g) (width g) cv' /\
    forall r c old,
      0 <= r < height g -> 0 <= c < width g ->
      cell cv r c = Some old ->
      cell cv' r c = Some (shown g r c old).
Proof.
  intros Hs Hne Hh Hhx Hhy Hax Hay Hfit.
  destruct (render_paints g cv Hs Hne Hh Hhx Hhy Hax Hay Hfit)
    as [cv' [E [Hs' Hp]]].
  exists cv'. split; [exact E|]. split; [exact Hs'|].
  intros r c old Hr Hc Hold. rewrite Hp by assumption.
  rewrite Hold. reflexivity.
Qed.

(** The first frame of a game on 24 columns and 22 rows. *)
Lemma render_frame_witness :
  exists cv',
    render (Game_init 24 22) (Game_canvas 24 22)
      = Some (cv', map (String.concat "") cv') /\
    cell cv' 4 3 = Some (GREEN ++ "X" ++ RESET)%string /\
    cell cv' 20 20 = Some (RED ++ "*" ++ RESET)%string /\
    cell cv' 0 3 = Some "S"%string /\
    cell cv' 10 10 = Some " "%string.
Proof.
  destruct (render_frame (Game_init 24 22) (Game_canvas 24 22))
    as [cv' [E [_ Hc]]].
  - apply (Game_canvas_shaped 24 22).
  - cbn. discriminate.
  - cbn. lia.
  - cbn. lia.
  - cbn. lia.
  - cbn. lia.
  - cbn. lia.
  - vm_compute. discriminate.
  - exists cv'. split; [exact E|].
    split; [|split; [|split]].
    + rewrite (Hc 4 3 " "%string); cbn; try lia; reflexivity.
    + rewrite (Hc 20 20 " "%string); cbn; try lia; reflexivity.
    + rewrite (Hc 0 3 " "%string); cbn; try lia; reflexivity.
    + rewrite (Hc 10 10 " "%string); cbn; try lia; reflexivity.
Defined.

(** X15: when [render] raises.  On a canvas of the game's size,
    [render] returns exactly when the body is not empty, there is at
    least one row, the head and apple coordinates are indices the canvas
    accepts (negative ones count from the end), and the score text fits
    on row 0 from column 3; in every other case it raises
    [IndexError]. *)
Theorem render_raises_unless_indices_fit (g : Game) (cv : Canvas) :
  shaped (Z.max 0 (height g)) (Z.max 0 (width g)) cv ->
  (render g cv <> None <->
   body (snake g) <> [] /\
   1 <= height g /\
   valid_index (height g) (x (last_point (body (snake g)))) /\
   valid_index (width g) (y (last_point (body (snake g)))) /\
   valid_index (height g) (x (position (apple g))) /\
   valid_index (width g) (y (position (apple g))) /\
   Z.of_nat (String.length (score_text g)) + 3 <= width g).
Proof. apply render_returns. Qed.

(** With the apple at row 30 a canvas of 24 rows is too small. *)
Lemma render_raises_unless_indices_fit_witness :
  render (set_apple_position (mkPoint 30 5) (Game_init 80 24))
         (Game_canvas 80 24) = None.
Proof.
  pose proof (render_raises_unless_indices_fit
                (set_apple_position (mkPoint 30 5) (Game_init 80 24))
                (Game_canvas 80 24) (Game_canvas_shaped 80 24)) as H.
  destruct (render (set_apple_position (mkPoint 30 5) (Game_init 80 24))
                   (Game_canvas 80 24)) as [res|]; [|reflexivity].
  exfalso.
  assert (Hok : Some res <> None) by discriminate.
  apply H in Hok. destruct Hok as [_ [_ [_ [_ [Hv _]]]]].
  unfold valid_index in Hv. cbn in Hv. lia.
Defined.

Lemma first_render_returns (w h : Z) :
  render (Game_init w h) (Game_canvas w h) <> None <-> 21 <= w /\ 21 <= h.
Proof.
  rewrite (render_returns (Game_init w h) (Game_canvas w h)
                          (Game_canvas_shaped w h)).
  replace (Z.of_nat (String.length (score_text (Game_init w h)))) with 8
    by reflexivity.
  unfold valid_index. cbn. split.
  - intros H. lia.
  - intros H. split; [discriminate|lia].
Qed.

(** X16: the first frame needs 21 rows and 21 columns: on the game and
    canvas that [Game(w, h)] builds, [render] returns exactly when
    [w >= 21] and [h >= 21]; on any smaller terminal it raises
    [IndexError], the first apple being at (20, 20). *)
Theorem first_render_needs_21_by_21 (w h : Z) :
  render (Game_init w h) (Game_canvas w h) <> None <-> 21 <= w /\ 21 <= h.
Proof. apply first_render_returns. Qed.

Lemma last_point_In (l : list Point) : l <> [] -> In (last_point l) l.
Proof.
  intros Hne. destruct (exists_last Hne) as [l' [a ->]].
  unfold last_point. rewrite last_last. apply in_or_app. right. left.
  reflexivity.
Qed.

(** X17: [render] never blanks a cell: under the conditions of the
    frame, a cell that is off the border, off the snake and off the
    apple is left as it was, so a later frame still shows what an
    earlier one drew there. *)
Theorem render_keeps_other_cells (g : Game) (cv : Canvas) :
  shaped (height g) (width g) cv ->
  body (snake g) <> [] ->
  1 <= height g ->
  0 <= x (last_point (body (snake g))) < height g ->
  0 <= y (last_point (body (snake g))) < width g ->
  0 <= x (position (apple g)) < height g ->
  0 <= y (position (apple g)) < width g ->
  Z.of_nat (String.length (score_text g)) + 3 <= width g ->
  exists cv',
    render g cv = Some (cv', map (String.concat "") cv') /\
    forall r c,
      0 < r < height g - 1 -> 0 < c < width g - 1 ->
      ~ In (mkPoint r c) (body (snake g)) ->
      mkPoint r c <> position (apple g) ->
      cell cv' r c = cell cv r c.
Proof.
  intros Hs Hne Hh Hhx Hhy Hax Hay Hfit.
  destruct (render_paints g cv Hs Hne Hh Hhx Hhy Hax Hay Hfit)
    as [cv' [E [_ Hp]]].
  exists cv'. split; [exact E|].
  intros r c Hr Hc Hbody Happle. rewrite Hp by lia.
  destruct (cell cv r c) as [old|]; [|reflexivity]. cbn [option_map].
  f_equal. unfold shown, base. cbv zeta.
  assert (Hb : existsb (Point_eqb (mkPoint r c)) (body (snake g)) = false).
  { destruct (existsb _ _) eqn:Eb; [|reflexivity].
    apply existsb_exists in Eb. destruct Eb as [b [Hin Heq]].
    apply Point_eqb_eq in Heq. subst b. contradiction. }
  assert (Hhd : (r =? x (last_point (body (snake g))))
                && (c =? y (last_point (body (snake g)))) = false).
  { destruct ((r =? x (last_point (body (snake g))))
              && (c =? y (last_point (body (snake g))))) eqn:Eh;
      [|reflexivity].
    apply andb_true_iff in Eh. destruct Eh as [E1 E2].
    apply Z.eqb_eq in E1, E2. exfalso. apply Hbody.
    replace (mkPoint r c) with (last_point (body (snake g))).
    - apply last_point_In. exact Hne.
    - destruct (last_point (body (snake g))); cbn in *; congruence. }
  assert (Hap : (r =? x (position (apple g)))
                && (c =? y (position (apple g))) = false).
  { destruct ((r =? x (position (apple g)))
              && (c =? y (position (apple g)))) eqn:Ea; [|reflexivity].
    apply andb_true_iff in Ea. destruct Ea as [E1 E2].
    apply Z.eqb_eq in E1, E2. exfalso. apply Happle.
    destruct (position (apple g)); cbn in *; congruence. }
  rewrite Hb, Hhd, Hap.
  replace (r =? 0) with false by (symmetry; apply Z.eqb_neq; lia).
  replace (r =? height g - 1) with false by (symmetry; apply Z.eqb_neq; lia).
  replace (c =? 0) with false by (symmetry; apply Z.eqb_neq; lia).
  replace (c =? width g - 1) with false by (symmetry; apply Z.eqb_neq; lia).
  reflexivity.
Qed.

(** A canvas on which an earlier frame drew an apple at (10, 10). *)
Lemma render_keeps_other_cells_witness :
  exists cv0 cv',
    canvas_set (Game_canvas 24 22) 10 10 (RED ++ "*" ++ RESET) = Some cv0 /\
    render (Game_init 24 22) cv0 = Some (cv', map (String.concat "") cv') /\
    cell cv' 10 10 = Some (RED ++ "*" ++ RESET)%string.
Proof.
  destruct (canvas_set (Game_canvas 24 22) 10 10 (RED ++ "*" ++ RESET))
    as [cv0|] eqn:E0; [|vm_compute in E0; discriminate].
  assert (Hcv : cv0 = set_nth 10 (set_nth 10 (RED ++ "*" ++ RESET)%string
                                          (repeat " "%string 24))
                              (Game_canvas 24 22)).
  { vm_compute in E0. injection E0 as <-. vm_compute. reflexivity. }
  destruct (render_keeps_other_cells (Game_init 24 22) cv0)
    as [cv' [E Hkeep]].
  - subst cv0. split; [reflexivity|]. vm_compute. repeat constructor.
  - cbn. discriminate.
  - cbn. lia.
  - cbn. lia.
  - cbn. lia.
  - cbn. lia.
  - cbn. lia.
  - vm_compute. discriminate.
  - exists cv0, cv'. split; [reflexivity|]. split; [exact E|].
    rewrite (Hkeep 10 10); cbn; try lia.
    + subst cv0. vm_compute. reflexivity.
    + intros H. repeat (destruct H as [H|H]; [discriminate H|]). exact H.
    + discriminate.
Defined.

(** ** The driver loop *)

Lemma played_reachable (w : World) : played w -> reachable w.
Proof.
  induction 1 as [gw gh r out|op w w' Hp IH Hplay Hcall].
  - apply reach_init.
  - eapply reach_call; eassumption.
Qed.

Lemma main_loop_returns (ticks : list Tick) :
  forall (last_update : float) (w : World),
    played w ->
    exists e w',
      main_loop ticks last_update w = Ok e w' /\
      played w' /\
      (e = ByGameOver -> game_over (game w') = true) /\
      (forall l, e = Pending l -> game_over (game w') = false).
Proof.
  induction ticks as [|t rest IH]; intros last_update w Hp.
  - cbn. unfold bind, self, ret.
    destruct (game_over (game w)) eqn:Eg.
    + exists ByGameOver, w. repeat split; auto; discriminate.
    + exists (Pending last_update), w. repeat split; auto; discriminate.
  - cbn [main_loop]. unfold bind at 1. unfold self at 1.
    destruct (game_over (game w)) eqn:Eg.
    { exists ByGameOver, w. repeat split; auto; discriminate. }
    assert (Hstep : exists l1 w1,
      (if PrimFloat.leb (speed (game w)) (tick_now t - last_update)%float
       then move None ;; ret (tick_later t)
       else ret last_update) w = Ok l1 w1 /\ played w1).
    { destruct (PrimFloat.leb _ _).
      - exists (tick_later t), (moved None w). split.
        + unfold bind. rewrite move_eq by (apply played_invariant; exact Hp).
          reflexivity.
        + apply (played_call (CallMove None) w); auto.
          apply move_eq. apply played_invariant. exact Hp.
      - exists last_update, w. split; [reflexivity|exact Hp]. }
    destruct Hstep as [l1 [w1 [E1 Hp1]]].
    unfold bind at 1. rewrite E1.
    destruct (tick_key t) as [key|]; [|apply IH; exact Hp1].
    destruct (negb (String.eqb key "") && String.eqb key "q").
    { exists ByQuit, w1. repeat split; auto; discriminate. }
    destruct (dict_has CONTROLS key); [|apply IH; exact Hp1].
    assert (Hg : get_movement key w1
                 = Ok tt (after (CallGetMovement key) w1)).
    { apply (call_eq (CallGetMovement key)). apply played_invariant.
      exact Hp1. }
    unfold bind at 1. rewrite Hg.
    apply IH. apply (played_call (CallGetMovement key) w1); auto.
Qed.

(** X18: the script never raises once the first frame is drawn.  On a
    terminal of at least 21 by 21, for any inputs, [main] returns from
    the loop in a world reached by [move] and [get_movement] calls
    alone; it reports [ByGameOver] only with [game_over] set and asks
    for more input only with [game_over] unset.  On a smaller terminal
    it raises [IndexError] in the first [render], before any input is
    read. *)
Theorem main_never_raises_after_first_frame
        (columns lines : Z) (r : Rng) (start : float) (ticks : list Tick) :
  (21 <= columns /\ 21 <= lines ->
   exists e w',
     main columns lines r start ticks = Some (Ok e w') /\
     played w' /\
     (e = ByGameOver -> game_over (game w') = true) /\
     (forall l, e = Pending l -> game_over (game w') = false)) /\
  (~ (21 <= columns /\ 21 <= lines) ->
   main columns lines r start ticks = None).
Proof.
  pose proof (first_render_returns columns lines) as Hr.
  unfold main. split.
  - intros Hbig.
    destruct (render (Game_init columns lines) (Game_canvas columns lines))
      as [fr|].
    + cbn [and_then].
      destruct (main_loop_returns ticks start
                  (mkWorld (Game_init columns lines) r []))
        as [e [w' [E H]]]; [apply played_init|].
      exists e, w'. rewrite E. auto.
    + exfalso. assert (Hn : (None : option (Canvas * list string)) <> None).
      { apply Hr. exact Hbig. }
      congruence.
  - intros Hsmall.
    destruct (render (Game_init columns lines) (Game_canvas columns lines))
      as [fr|]; [|reflexivity].
    exfalso. apply Hsmall.
    assert (Hok : Some fr <> None) by discriminate.
    apply Hr in Hok. exact Hok.
Qed.

Lemma main_loop_over (ticks : list Tick) (last_update : float) (w : World) :
  game_over (game w) = true ->
  main_loop ticks last_update w = Ok ByGameOver w.
Proof.
  intros Hg. destruct ticks; cbn [main_loop]; unfold bind, self, ret;
    rewrite Hg; reflexivity.
Qed.

Lemma CONTROLS_keys (key : string) (d : Direction) :
  dict_get CONTROLS key = Some d ->
  lower key = key /\ key <> "q"%string /\ key <> ""%string.
Proof.
  unfold CONTROLS, dict_get.
  destruct (String.eqb key "w") eqn:Ew;
    [apply String.eqb_eq in Ew; subst; repeat split; discriminate|].
  destruct (String.eqb key "s") eqn:Es;
    [apply String.eqb_eq in Es; subst; repeat split; discriminate|].
  destruct (String.eqb key "a") eqn:Ea;
    [apply String.eqb_eq in Ea; subst; repeat split; discriminate|].
  destruct (String.eqb key "d") eqn:Ed;
    [apply String.eqb_eq in Ed; subst; repeat split; discriminate|].
  discriminate.
Qed.

(** X19: a key read in the turn of a fatal timed move is still acted
    on.  When the timed move that is due runs into a wall or the body
    and the key of the same turn turns the snake, the loop calls
    [get_movement] before it tests [game_over] again: it ends with the
    snake moved twice, the head one step on in the old direction and one
    step in the key's. *)
Theorem key_after_fatal_move (t : Tick) (rest : list Tick)
        (last_update : float) (key : string) (d : Direction) (w : World) :
  body (snake (game w)) <> [] ->
  game_over (game w) = false ->
  PrimFloat.leb (speed (game w)) (tick_now t - last_update)%float = true ->
  hits_wall (game w) (next_head None w)
    || hits_body (game w) (next_head None w) = true ->
  tick_key t = Some key ->
  dict_get CONTROLS key = Some d ->
  d <> direction (snake (game w)) ->
  d <> opposite_directions (direction (snake (game w))) ->
  exists w',
    main_loop (t :: rest) last_update w = Ok ByGameOver w' /\
    game_over (game w') = true /\
    direction (snake (game w')) = d /\
    last_point (body (snake (game w')))
    = Point_add (Point_add (last_point (body (snake (game w))))
                           (DIRECTION_VECTORS (direction (snake (game w)))))
                (DIRECTION_VECTORS d).
Proof.
  intros Hne Hrun Hdue Hfatal Hkey Hd Hsame Hopp.
  destruct (CONTROLS_keys key d Hd) as [Hlow [Hq Hempty]].
  set (w1 := moved None w).
  assert (Hne1 : body (snake (game w1)) <> []).
  { apply (after_nonempty (CallMove None)). exact Hne. }
  assert (Hover1 : game_over (game w1) = true).
  { unfold w1, moved, validated.
    destruct (body (snake (game w))) as [|b0 bs]; [congruence|].
    destruct (hits_wall (game w) (next_head None w)); [reflexivity|].
    cbn [orb] in Hfatal. rewrite Hfatal. reflexivity. }
  assert (Hdir1 : direction (snake (game w1)) = direction (snake (game w)))
    by reflexivity.
  assert (Hlast1 : last_point (body (snake (game w1))) = next_head None w).
  { unfold w1. rewrite moved_body by exact Hne. apply last_point_app. }
  exists (moved (Some d) w1).
  assert (Hover2 : game_over (game (moved (Some d) w1)) = true).
  { apply (after_frame (CallMove (Some d)) w1). exact Hover1. }
  split; [|split; [exact Hover2|split; [reflexivity|]]].
  - cbn [main_loop]. unfold bind at 1. unfold self at 1. rewrite Hrun, Hdue.
    unfold bind at 1. unfold bind at 1. rewrite (move_eq None w Hne).
    fold w1. unfold ret at 1. rewrite Hkey.
    replace (negb (String.eqb key "") && String.eqb key "q") with false.
    2:{ symmetry. apply andb_false_iff. right. apply String.eqb_neq. exact Hq. }
    unfold dict_has. rewrite Hd.
    unfold bind at 1. rewrite get_movement_eq, Hlow, Hd, Hdir1.
    replace (Direction_eqb d (opposite_directions (direction (snake (game w)))))
      with false.
    2:{ symmetry. revert Hopp. clear.
        destruct d, (direction (snake (game w))); cbn; congruence. }
    replace (Direction_eqb d (direction (snake (game w)))) with false.
    2:{ symmetry. revert Hsame. clear.
        destruct d, (direction (snake (game w))); cbn; congruence. }
    rewrite (move_eq (Some d) w1 Hne1).
    apply main_loop_over. exact Hover2.
  - rewrite moved_body by exact Hne1. rewrite last_point_app.
    unfold next_head at 1. rewrite Hlast1. reflexivity.
Qed.

(** At [at_left_wall] the timed move is fatal; the key [w] of the same
    turn still turns the snake up. *)
Lemma key_after_fatal_move_witness :
  exists w',
    main_loop [mkTick 1 1 (Some "w"%string)] 0 at_left_wall
      = Ok ByGameOver w' /\
    last_point (body (snake (game w'))) = mkPoint 3 0.
Proof.
  destruct (key_after_fatal_move (mkTick 1 1 (Some "w"%string)) [] 0
                                 "w"%string UP at_left_wall)
    as [w' [E [_ [_ Hl]]]].
  - vm_compute. discriminate.
  - vm_compute. reflexivity.
  - vm_compute. reflexivity.
  - vm_compute. reflexivity.
  - reflexivity.
  - reflexivity.
  - vm_compute. discriminate.
  - vm_compute. discriminate.
  - exists w'. split; [exact E|]. rewrite Hl. vm_compute. reflexivity.
Defined.

(** X20: [q] ends the loop at once, with the rest of the input unread;
    a timed move that is due in that turn is made first, and the key
    itself changes nothing. *)
Theorem quit_key_ends_loop (t : Tick) (rest : list Tick)
        (last_update : float) (w : World) :
  body (snake (game w)) <> [] ->
  game_over (game w) = false ->
  tick_key t = Some "q"%string ->
  main_loop (t :: rest) last_update w
  = Ok ByQuit
       (if PrimFloat.leb (speed (game w)) (tick_now t - last_update)%float
        then moved None w else w).
Proof.
  intros Hne Hrun Hkey. cbn [main_loop].
  unfold bind at 1. unfold self at 1. rewrite Hrun.
  unfold bind at 1.
  destruct (PrimFloat.leb (speed (game w)) (tick_now t - last_update)%float).
  - unfold bind at 1. rewrite (move_eq None w Hne).
    unfold ret at 1. rewrite Hkey. reflexivity.
  - unfold ret at 1. rewrite Hkey. reflexivity.
Qed.

(** At the start of a game, before the first half second is over. *)
Lemma quit_key_ends_loop_witness :
  main_loop [mkTick 0.25 0.25 (Some "q"%string);
             mkTick 9 9 (Some "d"%string)] 0 (fresh 44 44 (fun _ => 7))
  = Ok ByQuit (fresh 44 44 (fun _ => 7)).
Proof.
  rewrite (quit_key_ends_loop (mkTick 0.25 0.25 (Some "q"%string))
             [mkTick 9 9 (Some "d"%string)] 0 (fresh 44 44 (fun _ => 7))).
  - vm_compute. reflexivity.
  - vm_compute. discriminate.
  - reflexivity.
  - reflexivity.
Defined.

(** X21: the loop only polls while nothing is due: over any number of
    turns in which the move interval has not passed and no control key
    or [q] was read, the world and [last_update] stay as they are. *)
Theorem idle_turns_change_nothing (ticks : list Tick) (last_update : float)
        (w : World) :
  game_over (game w) = false ->
  Forall (idle (speed (game w)) last_update) ticks ->
  main_loop ticks last_update w = Ok (Pending last_update) w.
Proof.
  intros Hrun Hidle. induction Hidle as [|t rest [Hdue Hkey] _ IH].
  - cbn. unfold bind, self, ret. rewrite Hrun. reflexivity.
  - cbn [main_loop]. unfold bind at 1. unfold self at 1. rewrite Hrun, Hdue.
    unfold bind at 1. unfold ret at 1.
    destruct (tick_key t) as [key|]; [|exact IH].
    destruct Hkey as [Hq Hc].
    replace (negb (String.eqb key "") && String.eqb key "q") with false.
    2:{ symmetry. apply andb_false_iff. right. apply String.eqb_neq. exact Hq. }
    unfold dict_has. rewrite Hc. exact IH.
Qed.

(** Three polls within the first half second, one with an upper-case W. *)
Lemma idle_turns_change_nothing_witness :
  main_loop [mkTick 0.125 0.125 None; mkTick 0.25 0.25 (Some "W"%string);
             mkTick 0.375 0.375 (Some "x"%string)] 0
            (fresh 44 44 (fun _ => 7))
  = Ok (Pending 0) (fresh 44 44 (fun _ => 7)).
Proof.
  apply (idle_turns_change_nothing
           [mkTick 0.125 0.125 None; mkTick 0.25 0.25 (Some "W"%string);
            mkTick 0.375 0.375 (Some "x"%string)] 0
           (fresh 44 44 (fun _ => 7))).
  - reflexivity.
  - repeat constructor; try (vm_compute; reflexivity);
      try (vm_compute; discriminate).
Defined.

(** ** Why a reversal is refused *)

(** While a game is played the head is one step from the point before
    it, in the snake's direction. *)
Lemma played_facing (w : World) :
  played w ->
  exists pre neck,
    body (snake (game w)) = pre ++ [neck; last_point (body (snake (game w)))] /\
    last_point (body (snake (game w)))
    = Point_add neck (DIRECTION_VECTORS (direction (snake (game w)))).
Proof.
  assert (Hmove : forall d v,
    (exists pre neck,
        body (snake (game v)) = pre ++ [neck; last_point (body (snake (game v)))]) ->
    exists pre neck,
      body (snake (game (moved d v)))
      = pre ++ [neck; last_point (body (snake (game (moved d v))))] /\
      last_point (body (snake (game (moved d v))))
      = Point_add neck (DIRECTION_VECTORS (direction (snake (game (moved d v)))))).
  { intros d v [pre [neck Hb]].
    assert (Hne : body (snake (game v)) <> []).
    { rewrite Hb. destruct pre; discriminate. }
    assert (Hl : last_point (body (snake (game (moved d v)))) = next_head d v).
    { rewrite moved_body by exact Hne. apply last_point_app. }
    rewrite Hl. rewrite moved_body by exact Hne.
    set (hd := last_point (body (snake (game v)))) in *.
    destruct (eats (game v) (next_head d v)).
    - exists (pre ++ [neck]), hd. split.
      + rewrite Hb at 1. rewrite <- !app_assoc. reflexivity.
      + reflexivity.
    - exists (List.tl (pre ++ [neck])), hd. split.
      + rewrite Hb at 1. destruct pre as [|p pre]; cbn.
        * reflexivity.
        * rewrite <- !app_assoc. reflexivity.
      + reflexivity. }
  induction 1 as [gw gh r out|op w w' Hp IH Hplay Hcall].
  - exists [mkPoint 1 3; mkPoint 2 3], (mkPoint 3 3). split; reflexivity.
  - destruct (played_invariant w Hp) as [Hne _].
    rewrite (call_eq op w Hne) in Hcall. injection Hcall as <-.
    destruct IH as [pre [neck [Hb Hl]]].
    destruct op as [d|key|p| |]; try discriminate; cbn [after].
    + apply Hmove. eauto.
    + destruct (dict_get CONTROLS (lower key)) as [d|]; [|eauto].
      destruct (Direction_eqb d (opposite_directions _)); [eauto|].
      destruct (Direction_eqb d (direction _)); [eauto|].
      apply Hmove. eauto.
Qed.

(** X22: the two direction tables agree, and a reversal is always
    fatal.  The vectors of opposite directions cancel; so while a game
    is played, [move] in the direction opposite to the snake's puts the
    new head on the point behind the head, and the call sets
    [game_over]: what [get_movement] refuses would end the game. *)
Theorem reversing_is_fatal :
  (forall d,
      Point_add (DIRECTION_VECTORS d)
                (DIRECTION_VECTORS (opposite_directions d)) = mkPoint 0 0) /\
  (forall w,
      played w ->
      exists w',
        move (Some (opposite_directions (direction (snake (game w))))) w
          = Ok tt w' /\
        game_over (game w') = true).
Proof.
  split; [intros d; destruct d; reflexivity|].
  intros w Hp. destruct (played_invariant w Hp) as [Hne _].
  destruct (played_facing w Hp) as [pre [neck [Hb Hl]]].
  set (opp := opposite_directions (direction (snake (game w)))).
  exists (moved (Some opp) w). split; [apply move_eq; exact Hne|].
  assert (Hnh : next_head (Some opp) w = neck).
  { unfold next_head, heading. rewrite Hl. unfold opp.
    destruct neck as [nx ny]. unfold Point_add.
    destruct (direction (snake (game w))); cbn; f_equal; lia. }
  assert (Hhit : hits_body (game w) (next_head (Some opp) w) = true).
  { rewrite Hnh. apply hits_body_iff. exists neck. split; [|auto].
    rewrite Hb.
    change (pre ++ [neck; last_point (body (snake (game w)))])
      with (pre ++ neck :: [last_point (body (snake (game w)))]).
    replace (pre ++ neck :: [last_point (body (snake (game w)))])
      with ((pre ++ [neck]) ++ [last_point (body (snake (game w)))])
      by (rewrite <- app_assoc; reflexivity).
    rewrite removelast_last. apply in_or_app. right. left. reflexivity. }
  unfold moved, validated.
  destruct (body (snake (game w))) as [|b0 bs]; [congruence|].
  destruct (hits_wall (game w) (next_head (Some opp) w)); [reflexivity|].
  rewrite Hhit. reflexivity.
Qed.
